(** * multijob, C++ interface: the command-line decoder and the [Args] buffer

    A shallow embedding of [cpp/multijob.cpp] ([split_arg], [separate_argv],
    [parse_commandline], in the revision that skips [argv[0]] and converts
    the ids with [convert_str_to_ul]), of Args.cpp ([Args::get_s], [get_i],
    [get_d], [get_b], [no_further_arguments], in the revision that includes
    conversion.h; the earlier [get_i] of [cpp/Args.cpp] is kept in
    [ArgsDirect]), of conversion.cpp ([convert] and the [convert_str_to_*]
    wrappers) and of [cpp/JoinedAndQuoted.h]. [Args::get_u] is left out: the
    [convert_str_to_u] it calls is not among the sources.

    Conventions of the embedding:
    - [std::string] is [string]; [char] is [ascii].
    - [std::unordered_map<std::string, std::string>] is [gmap string string].
    - a C++ function that may throw returns an [outcome]; a non-const member
      function of [Args] is a state transformer on the object ([method]).
    - integers are [Z]; the widths of [int], [long], [unsigned long] and
      [multijob::ID] are written out (LP64: 32, 64, 64 and 32 bits). *)

From Stdlib Require Import ZArith Ascii String DecimalString DecimalN DecimalPos DecimalFacts.
From stdpp Require Import gmap strings list fin_maps sorting.

Local Open Scope Z_scope.

(** ** Exceptions and outcomes *)

(** The exceptions that can leave the library: its own [MultijobError]
    (a [std::runtime_error]) and the two [std::logic_error]s thrown by the
    [std::sto*] family. Each carries its [what()] string. *)
Inductive exception : Type :=
  | MultijobError (what : string)
  | std_invalid_argument (what : string)
  | std_out_of_range (what : string).

Inductive outcome (A : Type) : Type :=
  | Return (a : A)
  | Throw (e : exception).
Arguments Return {A} a.
Arguments Throw {A} e.

Global Instance exception_eq_dec : EqDecision exception.
Proof. solve_decision. Defined.

Global Instance outcome_ret : MRet outcome := @Return.
Global Instance outcome_bind : MBind outcome := λ A B f x,
  match x with
  | Return a => f a
  | Throw e => Throw e
  end.
Global Instance outcome_fmap : FMap outcome := λ A B f x,
  match x with
  | Return a => Return (f a)
  | Throw e => Throw e
  end.

Definition throws {A} (x : outcome A) : Prop :=
  match x with Throw _ => True | Return _ => False end.

(** ** [std::string] primitives used by the sources *)

Module StdString.

Definition size (s : string) : nat := String.length s.

(** [s.find(c)]: index of the first occurrence of [c]; [None] is [npos]. *)
Fixpoint find (c : ascii) (s : string) : option nat :=
  match s with
  | EmptyString => None
  | String a rest =>
      if decide (a = c) then Some 0%nat else S <$> find c rest
  end.

(** [s.substr(pos, count)] for [pos <= s.size()]. *)
Definition substr (pos count : nat) (s : string) : string :=
  String.substring pos count s.

(** [s.substr(pos)]: everything from [pos] to the end. *)
Definition substr_from (pos : nat) (s : string) : string :=
  String.substring pos (size s - pos) s.

Definition double_quote : ascii := "034"%char.
Definition backslash : ascii := "\"%char.

(** [out << std::quoted(s)]: the delimiter, then every character, with
    the delimiter and the escape character preceded by a backslash, then
    the delimiter again. *)
Fixpoint quoted_body (s : string) : string :=
  match s with
  | EmptyString => EmptyString
  | String c rest =>
      if decide (c = double_quote ∨ c = backslash)
      then String backslash (String c (quoted_body rest))
      else String c (quoted_body rest)
  end.

Definition quoted (s : string) : string :=
  String double_quote (quoted_body s +:+ String double_quote EmptyString).

End StdString.

(** ** MultijobError.h *)

(** [MULTIJOB_ERROR(ops)] builds the message ["multijob: " << ops] and wraps
    it into a [MultijobError]. The header at hand has the macro throw by
    itself; the sources that write [throw MULTIJOB_ERROR(...)] use it as the
    exception value. The message is the same either way. *)
Definition MULTIJOB_ERROR (msg : string) : exception :=
  MultijobError ("multijob: " +:+ msg).

(** ** JoinedAndQuoted.h *)

Fixpoint joined_and_quoted_loop (want_comma : bool) (it : list string) : string :=
  match it with
  | [] => ""
  | x :: rest =>
      (if want_comma then ", " else "") +:+ StdString.quoted x
        +:+ joined_and_quoted_loop true rest
  end.

(** [operator<<] of [JoinedAndQuoted]; the stored separator [sep] is not
    consulted, the loop prints the literal [", "]. *)
Definition joined_and_quoted (sep : string) (keys : list string) : string :=
  joined_and_quoted_loop false keys.

(** The keys of a map, gathered ([keys.emplace_back(kv.first)]) and passed
    through [std::sort], which orders them by [std::string::operator<]: the
    lexicographic order on bytes, [String.le]. *)
Definition sorted_keys (m : gmap string string) : list string :=
  merge_sort String.le (fst <$> map_to_list m).

(** ** The [std::sto*] family (<string>), as used by conversion.cpp

    [std::stoi(str, pos, base)] and [std::stoul(str, pos, base)] call
    [strtol] / [strtoul]: skip white space, read an optional sign, settle the
    base (for base 0: a [0x]/[0X] prefix means 16, a leading [0] means 8,
    anything else 10), then read the longest run of digits of that base.
    No digit at all is [std::invalid_argument]; a value the result type
    cannot hold is [std::out_of_range]; otherwise the value is returned
    together with the number of characters consumed ([*pos]). The [what()]
    of the two exceptions is the name of the function, as in libstdc++. *)

Module StdStoi.

Definition INT_MIN : Z := - 2 ^ 31.
Definition INT_MAX : Z := 2 ^ 31 - 1.
Definition LONG_MIN : Z := - 2 ^ 63.
Definition LONG_MAX : Z := 2 ^ 63 - 1.
Definition ULONG_MAX : Z := 2 ^ 64 - 1.

Definition isspace (c : ascii) : bool :=
  let n := Z.of_N (N_of_ascii c) in
  (n =? 32) || ((9 <=? n) && (n <=? 13)).

Definition digit_value (c : ascii) : option Z :=
  let n := Z.of_N (N_of_ascii c) in
  if (48 <=? n) && (n <=? 57) then Some (n - 48)
  else if (97 <=? n) && (n <=? 122) then Some (n - 87)
  else if (65 <=? n) && (n <=? 90) then Some (n - 55)
  else None.

Definition digit_in_base (base : Z) (c : ascii) : option Z :=
  match digit_value c with
  | Some d => if d <? base then Some d else None
  | None => None
  end.

(** The longest run of digits of [base] at the front of [s]: the value
    accumulated on top of [acc], and how many characters were read. *)
Fixpoint scan_digits (base : Z) (s : string) (acc : Z) : Z * nat :=
  match s with
  | EmptyString => (acc, 0%nat)
  | String c rest =>
      match digit_in_base base c with
      | Some d =>
          let '(v, n) := scan_digits base rest (acc * base + d) in (v, S n)
      | None => (acc, 0%nat)
      end
  end.

Fixpoint skip_space (s : string) : nat * string :=
  match s with
  | String c rest =>
      if isspace c
      then let '(n, s') := skip_space rest in (S n, s')
      else (0%nat, s)
  | EmptyString => (0%nat, s)
  end.

Definition scan_sign (s : string) : bool * nat * string :=
  match s with
  | String c rest =>
      if decide (c = "-"%char) then (true, 1%nat, rest)
      else if decide (c = "+"%char) then (false, 1%nat, rest)
      else (false, 0%nat, s)
  | EmptyString => (false, 0%nat, s)
  end.

Definition is_x (c : ascii) : bool :=
  bool_decide (c = "x"%char ∨ c = "X"%char).

Definition leading_zero (s : string) : bool :=
  match s with
  | String c _ => bool_decide (c = "0"%char)
  | EmptyString => false
  end.

(** What [strtol]/[strtoul] recognise: sign, magnitude and the index one
    past the last character used; [None] when no conversion is possible. *)
Record scanned : Type := Scanned {
  sc_negative : bool;
  sc_magnitude : Z;
  sc_end : nat
}.

(** The digits after the sign. With base 0 or 16, ["0x"] announces
    hexadecimal digits; if none follows, only the ["0"] is used. Otherwise
    base 0 means octal after a leading ["0"], decimal else. *)
Definition scan_body (base : Z) (s : string) : option (Z * nat) :=
  let plain :=
    let b := if base =? 0 then (if leading_zero s then 8 else 10) else base in
    match scan_digits b s 0 with
    | (_, O) => None
    | (v, n) => Some (v, n)
    end in
  match s with
  | String c (String x rest) =>
      if bool_decide (c = "0"%char) && is_x x && ((base =? 0) || (base =? 16))
      then
        match scan_digits 16 rest 0 with
        | (_, O) => Some (0, 1%nat)
        | (v, n) => Some (v, (2 + n)%nat)
        end
      else plain
  | _ => plain
  end.

Definition scan_integer (base : Z) (s : string) : option scanned :=
  let '(nws, s1) := skip_space s in
  let '(neg, nsign, s2) := scan_sign s1 in
  match scan_body base s2 with
  | Some (v, n) => Some (Scanned neg v (nws + nsign + n))
  | None => None
  end.

(** [std::stoi]: [strtol], then the narrowing check to [int]. *)
Definition stoi (str : string) (base : Z) : outcome (Z * nat) :=
  match scan_integer base str with
  | None => Throw (std_invalid_argument "stoi")
  | Some sc =>
      let v := if sc_negative sc then - sc_magnitude sc else sc_magnitude sc in
      if (v <? LONG_MIN) || (LONG_MAX <? v)
      then Throw (std_out_of_range "stoi")       (* strtol set ERANGE *)
      else if (v <? INT_MIN) || (INT_MAX <? v)
      then Throw (std_out_of_range "stoi")       (* does not fit an int *)
      else Return (v, sc_end sc)
  end.

(** [std::stoul]: [strtoul]; a minus sign negates the magnitude in
    [unsigned long] arithmetic, it is not an error. *)
Definition stoul (str : string) (base : Z) : outcome (Z * nat) :=
  match scan_integer base str with
  | None => Throw (std_invalid_argument "stoul")
  | Some sc =>
      if ULONG_MAX <? sc_magnitude sc
      then Throw (std_out_of_range "stoul")      (* strtoul set ERANGE *)
      else
        let v := if sc_negative sc
                 then (- sc_magnitude sc) mod (ULONG_MAX + 1)
                 else sc_magnitude sc in
        Return (v, sc_end sc)
  end.

End StdStoi.

Import StdStoi.

(** ** conversion.cpp *)

(** The [convert] template: run the converter, translate the two standard
    exceptions into [MultijobError]s, then insist that the whole string was
    consumed. *)
Definition convert {Result : Type} (type_descr name s : string)
    (converter : string → outcome (Result * nat)) : outcome Result :=
  match converter s with
  | Throw (std_invalid_argument what) =>
      Throw (MULTIJOB_ERROR
        ("can't parse " +:+ name +:+ ": " +:+ StdString.quoted s
           +:+ " is not " +:+ type_descr +:+ ": " +:+ what))
  | Throw (std_out_of_range what) =>
      Throw (MULTIJOB_ERROR
        ("can't parse " +:+ name +:+ ": " +:+ StdString.quoted s
           +:+ " is out of range: " +:+ what))
  | Throw e => Throw e
  | Return (result, consumed_chars) =>
      if decide (consumed_chars ≠ StdString.size s)
      then Throw (MULTIJOB_ERROR
        ("can't parse " +:+ name +:+ ": " +:+ StdString.quoted s
           +:+ " is not " +:+ type_descr))
      else Return result
  end.

Definition convert_str_to_i (name s : string) : outcome Z :=
  convert "an integer number" name s (λ str, stoi str 0).

Definition convert_str_to_ul (name s : string) : outcome Z :=
  convert "an unsigned integer number" name s (λ str, stoul str 0).

Section FloatingPoint.
(** [double] and [std::stod] are left abstract: a converter that either
    throws or returns a value and the number of characters consumed. *)
Context {double : Type} (stod : string → outcome (double * nat)).

Definition convert_str_to_ld (name s : string) : outcome double :=
  convert "a floating point number" name s stod.
End FloatingPoint.

(** ** include/multijob/Args.h *)

(** [using ID = std::uint32_t]; [ID(x)] converts an [unsigned long]. *)
Definition ID (x : Z) : Z := x mod 2 ^ 32.

Record Args : Type := mkArgs {
  m_job_id : Z;
  m_repetition_id : Z;
  m_args : gmap string string
}.

Definition job_id (self : Args) : Z := m_job_id self.
Definition repetition_id (self : Args) : Z := m_repetition_id self.

Definition set_args (self : Args) (m : gmap string string) : Args :=
  mkArgs (m_job_id self) (m_repetition_id self) m.

(** A non-const member function: it returns or throws, and leaves the
    object in the state it had reached at that point. *)
Definition method (A : Type) : Type := Args → outcome A * Args.

Definition method_bind {A B} (m : method A) (k : A → method B) : method B :=
  λ self,
    match m self with
    | (Return a, self') => k a self'
    | (Throw e, self') => (Throw e, self')
    end.

(** A computation that does not touch the object. *)
Definition method_lift {A} (x : outcome A) : method A := λ self, (x, self).

(** ** Args.cpp *)

(** The messages of the errors raised here and in multijob.cpp. The library
    has one exception class; the kind of failure is told by the message. *)
Definition MissingParameterError (name : string) : exception :=
  MULTIJOB_ERROR ("param does not exist: " +:+ StdString.quoted name).

Definition UnconsumedArgumentsError (keys : list string) : exception :=
  MULTIJOB_ERROR ("params were not consumed: " +:+ joined_and_quoted ", " keys).

Definition BoolCoercionError (name s : string) : exception :=
  MULTIJOB_ERROR ("param " +:+ StdString.quoted name +:+ " is not boolean: " +:+ StdString.quoted s).

(** [Args::no_further_arguments() const] *)
Definition no_further_arguments (self : Args) : outcome () :=
  if decide (m_args self = ∅) then Return ()
  else
    let keys := sorted_keys (m_args self) in
    Throw (UnconsumedArgumentsError keys).

(** [Args::get_s] *)
Definition get_s (name : string) : method string := λ self,
  match m_args self !! name with
  | None => (Throw (MissingParameterError name), self)
  | Some result => (Return result, set_args self (delete name (m_args self)))
  end.

(** [Args::get_i] *)
Definition get_i (name : string) : method Z :=
  method_bind (get_s name) (λ s, method_lift (convert_str_to_i name s)).

Section ArgsFloatingPoint.
Context {double : Type} (stod : string → outcome (double * nat)).

(** [Args::get_d] *)
Definition get_d (name : string) : method double :=
  method_bind (get_s name) (λ s, method_lift (convert_str_to_ld stod name s)).
End ArgsFloatingPoint.

(** [Args::get_b] *)
Definition get_b (name : string) : method bool :=
  method_bind (get_s name) (λ s,
    if decide (s = "True" ∨ s = "true") then method_lift (Return true)
    else if decide (s = "False" ∨ s = "false") then method_lift (Return false)
    else method_lift (Throw (BoolCoercionError name s))).

(** The earlier revision of Args.cpp calls [std::stoi] directly, in base 10
    and without translating its exceptions. *)
Module ArgsDirect.

Definition NotIntegerError (name s : string) : exception :=
  MULTIJOB_ERROR ("param " +:+ StdString.quoted name +:+ " is not integer: " +:+ StdString.quoted s).

Definition get_i (name : string) : method Z :=
  method_bind (get_s name) (λ s, method_lift
    ('(result, consumed_chars) ← stoi s 10;
     if decide (consumed_chars ≠ StdString.size s)
     then Throw (NotIntegerError name s)
     else Return result)).

End ArgsDirect.

(** ** multijob.cpp *)

Definition MalformedArgumentError (arg : string) : exception :=
  MULTIJOB_ERROR ("can't split as argument: " +:+ StdString.quoted arg).

Definition MissingSpecialArgumentError (which key : string) : exception :=
  MULTIJOB_ERROR ("special " +:+ which +:+ " argument " +:+ StdString.quoted key +:+ " required").

Definition UnknownSpecialArgumentError (keys : list string) : exception :=
  MULTIJOB_ERROR ("unknown special arguments before " +:+ StdString.quoted "--"
                    +:+ " separator: " +:+ joined_and_quoted ", " keys).

Definition split_arg (arg : string) : outcome (string * string) :=
  match StdString.find "="%char arg with
  | None => Throw (MalformedArgumentError arg)
  | Some sep_pos =>
      let key := StdString.substr 0 sep_pos arg in
      let value := StdString.substr_from (sep_pos + 1) arg in
      Return (key, value)
  end.

(** The first loop of [separate_argv]: it stops at the separator or at
    [end], and hands back the map and the position reached. *)
Fixpoint special_loop (argv : list string) (sep : string)
    (special_args : gmap string string)
    : outcome (gmap string string * list string) :=
  match argv with
  | [] => Return (special_args, [])
  | arg :: rest =>
      if decide (arg = sep) then Return (special_args, argv)
      else
        '(key, value) ← split_arg arg;
        special_loop rest sep (<[key := value]> special_args)
  end.

(** The second loop: every remaining token is split. *)
Fixpoint normal_loop (argv : list string) (normal_args : gmap string string)
    : outcome (gmap string string) :=
  match argv with
  | [] => Return normal_args
  | arg :: rest =>
      '(key, value) ← split_arg arg;
      normal_loop rest (<[key := value]> normal_args)
  end.

(** [separate_argv(argc, argv, sep)] works on the range [argv, argv + argc). *)
Definition separate_argv (argc : Z) (argv : list string) (sep : string)
    : outcome (gmap string string * gmap string string) :=
  let range := take (Z.to_nat argc) argv in
  '(special_args, argv) ← special_loop range sep ∅;
  let argv := match argv with [] => [] | _ :: after => after end in
  normal_args ← normal_loop argv ∅;
  Return (special_args, normal_args).

(** include/multijob.h *)
Record JobArgvConfig : Type := mkJobArgvConfig {
  job_id_key : string;
  repetition_id_key : string
}.

Definition default_config : JobArgvConfig := mkJobArgvConfig "--id" "--rep".

(** [parse_commandline(argc, argv, config)], for [argc >= 1]. *)
Definition parse_commandline (argc : Z) (argv : list string)
    (config : JobArgvConfig) : outcome Args :=
  (* skip argv[0], which is the executable name *)
  let argc := argc - 1 in
  let argv := drop 1 argv in
  '(special_args, normal_args) ← separate_argv argc argv "--";
  match (special_args : gmap string string) !! job_id_key config with
  | None =>
      Throw (MissingSpecialArgumentError "job_id" (job_id_key config))
  | Some job_id_str =>
      let special_args := delete (job_id_key config) special_args in
      match special_args !! repetition_id_key config with
      | None =>
          Throw (MissingSpecialArgumentError "repetition_id"
                   (repetition_id_key config))
      | Some repetition_id_str =>
          let special_args := delete (repetition_id_key config) special_args in
          if decide (size special_args ≠ 0%nat) then
            let keys := sorted_keys special_args in
            Throw (UnknownSpecialArgumentError keys)
          else
            job_id ← ID <$> convert_str_to_ul "job_id" job_id_str;
            repetition_id ←
              ID <$> convert_str_to_ul "repetition_id" repetition_id_str;
            Return (mkArgs job_id repetition_id normal_args)
      end
  end.

(** The call made from [main]: [argc] is the number of entries of [argv]. *)
Definition invoke (argv : list string) (config : JobArgvConfig) : outcome Args :=
  parse_commandline (Z.of_nat (length argv)) argv config.

(** ** Vocabulary of the specification *)

Definition chars (s : string) : list ascii := list_ascii_of_string s.

(** The token [tok] reads [key=value], the [=] shown being its first one. *)
Definition splits_at_first_equals (tok : string) (kv : string * string) : Prop :=
  tok = kv.1 +:+ "=" +:+ kv.2 ∧ "="%char ∉ chars kv.1.

(** The tokens before the first bare ["--"], and the tokens after it. *)
Fixpoint special_region (tokens : list string) : list string :=
  match tokens with
  | [] => []
  | tok :: rest => if decide (tok = "--") then [] else tok :: special_region rest
  end.

Fixpoint normal_region (tokens : list string) : list string :=
  match tokens with
  | [] => []
  | tok :: rest => if decide (tok = "--") then rest else normal_region rest
  end.

(** The map obtained by assigning the pairs from left to right, so that a
    later pair overrides an earlier one with the same key. *)
Definition assign_all (kvs : list (string * string)) : gmap string string :=
  list_to_map (reverse kvs).

(** The assignment [special_args[key] = value] of the loops. *)
Definition assign (m : gmap string string) (kv : string * string) :
    gmap string string :=
  <[kv.1 := kv.2]> m.

Global Instance splits_at_first_equals_dec tok kv :
  Decision (splits_at_first_equals tok kv).
Proof. unfold splits_at_first_equals. apply _. Defined.

(** The base-10 numeral of [n], without sign or leading zeros. *)
Definition decimal_numeral (n : N) : string := NilZero.string_of_uint (N.to_uint n).

(** The integer literals of C, as [strtol] and [strtoul] take them in base 0:
    white space, an optional sign, then a decimal numeral that does not start
    with 0, or a 0 followed by octal digits, or [0x]/[0X] followed by at
    least one hexadecimal digit. *)
Definition all_digits (base : Z) (s : string) : Prop :=
  Forall (λ c, is_Some (digit_in_base base c)) (chars s).

Definition literal_body (body : string) : Prop :=
  (body ≠ "" ∧ leading_zero body = false ∧ all_digits 10 body) ∨
  (∃ digits, body = String "0" digits ∧ all_digits 8 digits) ∨
  (∃ x digits, body = String "0" (String x digits) ∧ is_x x = true ∧
               digits ≠ "" ∧ all_digits 16 digits).

Definition integer_literal (s : string) : Prop :=
  ∃ space sign body,
    s = space +:+ sign +:+ body ∧
    Forall (λ c, isspace c = true) (chars space) ∧
    sign ∈ [""; "+"; "-"] ∧
    literal_body body.

(** ** Coercion errors *)

(** The three ways [convert] can fail. *)
Inductive coercion_failure : Type :=
  | not_parseable (what : string)
  | out_of_range (what : string)
  | trailing_characters.

Definition CoercionError (type_descr name s : string)
    (why : coercion_failure) : exception :=
  MULTIJOB_ERROR
    ("can't parse " +:+ name +:+ ": " +:+ StdString.quoted s +:+
     match why with
     | not_parseable what => " is not " +:+ type_descr +:+ ": " +:+ what
     | out_of_range what => " is out of range: " +:+ what
     | trailing_characters => " is not " +:+ type_descr
     end).

Definition InvalidIdError (which s : string) (why : coercion_failure) : exception :=
  CoercionError "an unsigned integer number" which s why.

(** The message [msg] contains the text [part]. *)
Definition mentions (msg part : string) : Prop :=
  ∃ before after, msg = before +:+ part +:+ after.

Fixpoint is_mentioned (part msg : string) : bool :=
  String.prefix part msg ||
  match msg with
  | EmptyString => false
  | String _ rest => is_mentioned part rest
  end.

(** ** Vocabulary for the further properties *)

(** A caller that extracts the parameters [names] one after the other with
    [get_s] and collects the values. *)
Fixpoint extract_each (names : list string) : method (list string) :=
  match names with
  | [] => method_lift (Return [])
  | name :: rest =>
      method_bind (get_s name) (λ value,
        method_bind (extract_each rest) (λ values,
          method_lift (Return (value :: values))))
  end.

(** The base-10 rendering of an integer: a minus sign for a negative one,
    then the numeral of its magnitude. *)
Definition decimal_int (z : Z) : string :=
  if z <? 0 then String "-" (decimal_numeral (Z.to_N (- z)))
  else decimal_numeral (Z.to_N z).

(** The earlier revision of conversion.cpp: [convert_str_to_ul] alone,
    calling [std::stoul] in base 10. *)
Module ConversionDirect.

Definition convert_str_to_ul (name s : string) : outcome Z :=
  match stoul s 10 with
  | Throw (std_invalid_argument what) =>
      Throw (MULTIJOB_ERROR
        ("can't parse " +:+ name +:+ ": " +:+ StdString.quoted s
           +:+ " is not numeric: " +:+ what))
  | Throw (std_out_of_range what) =>
      Throw (MULTIJOB_ERROR
        ("can't parse " +:+ name +:+ ": " +:+ StdString.quoted s
           +:+ " is out of range: " +:+ what))
  | Throw e => Throw e
  | Return (result, consumed_chars) =>
      if decide (consumed_chars ≠ StdString.size s)
      then Throw (MULTIJOB_ERROR
        ("can't parse " +:+ name +:+ ": " +:+ StdString.quoted s
           +:+ " is not numeric"))
      else Return result
  end.

End ConversionDirect.

(** The earlier revision of multijob.cpp: [argv[0]] is not skipped, the
    repetition id string is taken from [repetition_id_it->first], and the
    ids are converted by [std::stoul] in base 10 on the spot. [split_arg],
    [separate_argv] and the messages are as above. *)
Module MultijobDirect.

Definition parse_commandline (argc : Z) (argv : list string)
    (config : JobArgvConfig) : outcome Args :=
  '(special_args, normal_args) ← separate_argv argc argv "--";
  match (special_args : gmap string string) !! job_id_key config with
  | None =>
      Throw (MissingSpecialArgumentError "job_id" (job_id_key config))
  | Some job_id_str =>
      let special_args := delete (job_id_key config) special_args in
      match special_args !! repetition_id_key config with
      | None =>
          Throw (MissingSpecialArgumentError "repetition_id"
                   (repetition_id_key config))
      | Some _ =>
          let repetition_id_str := repetition_id_key config in
          let special_args := delete (repetition_id_key config) special_args in
          if decide (size special_args ≠ 0%nat) then
            let keys := sorted_keys special_args in
            Throw (UnknownSpecialArgumentError keys)
          else
            '(job_id, consumed_chars) ← stoul job_id_str 10;
            if decide (consumed_chars ≠ StdString.size job_id_str)
            then Throw (MULTIJOB_ERROR
                   ("can't parse job_id: " +:+ StdString.quoted job_id_str))
            else
              '(repetition_id, consumed_chars) ← stoul repetition_id_str 10;
              if decide (consumed_chars ≠ StdString.size repetition_id_str)
              then Throw (MULTIJOB_ERROR
                     ("can't parse repetition_id: "
                        +:+ StdString.quoted repetition_id_str))
              else Return (mkArgs (ID job_id) (ID repetition_id) normal_args)
      end
  end.

End MultijobDirect.

(** [Args::get_d] of the earlier revision of Args.cpp, calling [std::stod]
    directly. *)
Module ArgsDirectFloat.
Section stod.
Context {double : Type} (stod : string → outcome (double * nat)).

Definition NotDoubleError (name s : string) : exception :=
  MULTIJOB_ERROR ("param " +:+ StdString.quoted name +:+ " is not double: "
                    +:+ StdString.quoted s).

Definition get_d (name : string) : method double :=
  method_bind (get_s name) (λ s, method_lift
    ('(result, consumed_chars) ← stod s;
     if decide (consumed_chars ≠ StdString.size s)
     then Throw (NotDoubleError name s)
     else Return result)).

End stod.
End ArgsDirectFloat.

(** Closed decidable side conditions are settled by evaluation. *)
Ltac by_evaluation := apply (bool_decide_unpack _); vm_compute; exact I.

(** * Properties *)

(** ** Strings *)

Section string_facts.
Implicit Types (s k v : string) (c : ascii).

Lemma find_None c s : StdString.find c s = None ↔ c ∉ chars s.
Proof.
  induction s as [|a s IH]; simpl.
  - split; [intros _; apply not_elem_of_nil | done].
  - rewrite not_elem_of_cons. destruct (decide (a = c)) as [->|Hne].
    + split; [done | intros [? _]; done].
    + rewrite fmap_None, IH. split; [intros ?; split; [congruence | done] | tauto].
Qed.

Lemma find_app c k v :
  c ∉ chars k → StdString.find c (k +:+ String c v) = Some (String.length k).
Proof.
  induction k as [|a k IH]; simpl; intros Hk.
  - by rewrite decide_True.
  - apply not_elem_of_cons in Hk as [Hne Hk].
    rewrite decide_False by congruence. by rewrite (IH Hk).
Qed.

Lemma find_Some c s n :
  StdString.find c s = Some n →
  ∃ k v, s = k +:+ String c v ∧ String.length k = n ∧ c ∉ chars k.
Proof.
  revert n. induction s as [|a s IH]; simpl; intros n Hf; [done|].
  destruct (decide (a = c)) as [->|Hne].
  - injection Hf as <-. exists "", s. split_and!; [done | done | apply not_elem_of_nil].
  - apply fmap_Some in Hf as (m & Hm & ->).
    destruct (IH _ Hm) as (k & v & -> & <- & Hk).
    exists (String a k), v. split_and!; [done | done |].
    apply not_elem_of_cons. split; [congruence | done].
Qed.

Lemma substr_prefix k s : StdString.substr 0 (String.length k) (k +:+ s) = k.
Proof.
  unfold StdString.substr. induction k as [|a k IH]; simpl.
  - by destruct s.
  - by rewrite IH.
Qed.

Lemma substring_all s : String.substring 0 (String.length s) s = s.
Proof. induction s as [|a s IH]; simpl; [done | by rewrite IH]. Qed.

Lemma substr_from_suffix k c v :
  StdString.substr_from (String.length k + 1) (k +:+ String c v) = v.
Proof.
  unfold StdString.substr_from, StdString.size.
  induction k as [|a k IH]; simpl.
  - rewrite Nat.sub_0_r. apply substring_all.
  - apply IH.
Qed.

Lemma chars_app k s : chars (k +:+ s) = chars k ++ chars s.
Proof. induction k as [|a k IH]; simpl; [done | by rewrite IH]. Qed.

Lemma string_app_nil_r s : s +:+ "" = s.
Proof. induction s as [|a s IH]; [done | exact (f_equal (String a) IH)]. Qed.

Lemma string_app_assoc s k v : (s +:+ k) +:+ v = s +:+ k +:+ v.
Proof. induction s as [|a s IH]; [done | exact (f_equal (String a) IH)]. Qed.

Lemma string_app_length s k :
  String.length (s +:+ k) = (String.length s + String.length k)%nat.
Proof. induction s as [|a s IH]; [done | exact (f_equal S IH)]. Qed.

End string_facts.

(** ** [split_arg] *)

Lemma split_arg_key_value k v :
  "="%char ∉ chars k → split_arg (k +:+ "=" +:+ v) = Return (k, v).
Proof.
  intros Hk. unfold split_arg.
  change (k +:+ "=" +:+ v) with (k +:+ String "=" v).
  rewrite (find_app _ _ _ Hk). simpl.
  by rewrite substr_prefix, substr_from_suffix.
Qed.

Lemma split_arg_malformed tok :
  "="%char ∉ chars tok → split_arg tok = Throw (MalformedArgumentError tok).
Proof. intros Hk. unfold split_arg. by apply find_None in Hk as ->. Qed.

Lemma split_arg_Return tok kv :
  split_arg tok = Return kv ↔ splits_at_first_equals tok kv.
Proof.
  destruct kv as [k v]. unfold splits_at_first_equals. simpl. split.
  - unfold split_arg. destruct (StdString.find _ tok) as [n|] eqn:Hf; [|done].
    destruct (find_Some _ _ _ Hf) as (k' & v' & -> & <- & Hk').
    rewrite substr_prefix, substr_from_suffix. by intros [= <- <-].
  - intros [-> Hk]. by apply split_arg_key_value.
Qed.

Lemma split_arg_Throw tok e :
  split_arg tok = Throw e ↔
  ("="%char ∉ chars tok) ∧ e = MalformedArgumentError tok.
Proof.
  split.
  - unfold split_arg. destruct (StdString.find _ tok) eqn:Hf; [done|].
    apply find_None in Hf. by intros [= <-].
  - intros [Hk ->]. by apply split_arg_malformed.
Qed.

(** ** The two loops of [separate_argv] *)

Lemma foldl_assign kvs acc :
  foldl assign acc kvs = foldr (λ kv m, assign m kv) acc (reverse kvs).
Proof.
  revert acc. induction kvs as [|kv kvs IH]; intros acc; simpl; [done|].
  by rewrite reverse_cons, foldr_app, IH.
Qed.

Lemma foldl_assign_empty kvs : foldl assign ∅ kvs = assign_all kvs.
Proof. by rewrite foldl_assign. Qed.

Lemma has_equals_splits tokens :
  Forall (λ tok, "="%char ∈ chars tok) tokens →
  ∃ kvs, Forall2 splits_at_first_equals tokens kvs.
Proof.
  induction 1 as [|tok tokens Htok _ [kvs IH]]; [by exists []|].
  destruct (split_arg tok) as [kv|e] eqn:Hs.
  - apply split_arg_Return in Hs. exists (kv :: kvs). by constructor.
  - apply split_arg_Throw in Hs as [Hno _]. done.
Qed.

Lemma after_special_region tokens :
  match drop (length (special_region tokens)) tokens with
  | [] => []
  | _ :: after => after
  end = normal_region tokens.
Proof.
  induction tokens as [|tok tokens IH]; simpl; [done|].
  destruct (decide (tok = "--")); simpl; [done | apply IH].
Qed.

Lemma special_loop_ok tokens kvs acc :
  Forall2 splits_at_first_equals (special_region tokens) kvs →
  special_loop tokens "--" acc =
    Return (foldl assign acc kvs, drop (length (special_region tokens)) tokens).
Proof.
  revert kvs acc. induction tokens as [|tok tokens IH]; intros kvs acc; simpl.
  - by intros ->%Forall2_nil_inv_l.
  - destruct (decide (tok = "--")); simpl.
    + by intros ->%Forall2_nil_inv_l.
    + intros (kv & kvs' & Hkv & Hrest & ->)%Forall2_cons_inv_l.
      apply split_arg_Return in Hkv. rewrite Hkv. destruct kv as [k v]. simpl.
      by rewrite (IH kvs').
Qed.

Lemma normal_loop_ok tokens kvs acc :
  Forall2 splits_at_first_equals tokens kvs →
  normal_loop tokens acc = Return (foldl assign acc kvs).
Proof.
  revert kvs acc. induction tokens as [|tok tokens IH]; intros kvs acc; simpl.
  - by intros ->%Forall2_nil_inv_l.
  - intros (kv & kvs' & Hkv & Hrest & ->)%Forall2_cons_inv_l.
    apply split_arg_Return in Hkv. rewrite Hkv. destruct kv as [k v]. simpl.
    by rewrite (IH kvs').
Qed.

(** A token without [=] stops the loop it is met in; the error names the
    first such token. *)
Lemma special_loop_malformed tokens acc :
  Exists (λ tok, "="%char ∉ chars tok) (special_region tokens) →
  ∃ tok, tok ∈ special_region tokens ∧ ("="%char ∉ chars tok) ∧
    special_loop tokens "--" acc = Throw (MalformedArgumentError tok).
Proof.
  revert acc. induction tokens as [|tok tokens IH]; intros acc; simpl.
  - by intros ?%Exists_nil.
  - destruct (decide (tok = "--")); simpl; [by intros ?%Exists_nil|].
    destruct (split_arg tok) as [[k v]|e] eqn:Hs; simpl.
    + intros [Hbad|Hlater]%Exists_cons.
      * apply split_arg_Return in Hs as [-> _]. simpl in Hbad.
        rewrite chars_app in Hbad. exfalso. apply Hbad.
        apply elem_of_app. right. apply elem_of_cons. by left.
      * destruct (IH (<[k:=v]> acc) Hlater) as (bad & Hin & Hno & ->).
        exists bad. split_and!; [by apply elem_of_cons; right | done | done].
    + intros _. apply split_arg_Throw in Hs as [Hno ->].
      exists tok. split_and!; [by apply elem_of_cons; left | done | done].
Qed.

Lemma normal_loop_malformed tokens acc :
  Exists (λ tok, "="%char ∉ chars tok) tokens →
  ∃ tok, tok ∈ tokens ∧ ("="%char ∉ chars tok) ∧
    normal_loop tokens acc = Throw (MalformedArgumentError tok).
Proof.
  revert acc. induction tokens as [|tok tokens IH]; intros acc; simpl.
  - by intros ?%Exists_nil.
  - destruct (split_arg tok) as [[k v]|e] eqn:Hs; simpl.
    + intros [Hbad|Hlater]%Exists_cons.
      * apply split_arg_Return in Hs as [-> _]. simpl in Hbad.
        rewrite chars_app in Hbad. exfalso. apply Hbad.
        apply elem_of_app. right. apply elem_of_cons. by left.
      * destruct (IH (<[k:=v]> acc) Hlater) as (bad & Hin & Hno & ->).
        exists bad. split_and!; [by apply elem_of_cons; right | done | done].
    + intros _. apply split_arg_Throw in Hs as [Hno ->].
      exists tok. split_and!; [by apply elem_of_cons; left | done | done].
Qed.

(** ** [separate_argv] on a whole token list *)

Lemma take_all_tokens (tokens : list string) :
  take (Z.to_nat (Z.of_nat (length tokens))) tokens = tokens.
Proof. rewrite Nat2Z.id. apply firstn_all. Qed.

Lemma separate_argv_ok tokens skvs nkvs :
  Forall2 splits_at_first_equals (special_region tokens) skvs →
  Forall2 splits_at_first_equals (normal_region tokens) nkvs →
  separate_argv (Z.of_nat (length tokens)) tokens "--" =
    Return (assign_all skvs, assign_all nkvs).
Proof.
  intros Hs Hn. unfold separate_argv. rewrite take_all_tokens.
  rewrite (special_loop_ok _ _ _ Hs). simpl.
  rewrite after_special_region, (normal_loop_ok _ _ _ Hn). simpl.
  by rewrite !foldl_assign_empty.
Qed.

Lemma separate_argv_malformed tokens :
  Exists (λ tok, "="%char ∉ chars tok)
    (special_region tokens ++ normal_region tokens) →
  ∃ tok, tok ∈ special_region tokens ++ normal_region tokens ∧
    ("="%char ∉ chars tok) ∧
    separate_argv (Z.of_nat (length tokens)) tokens "--" =
      Throw (MalformedArgumentError tok).
Proof.
  intros Hbad. unfold separate_argv. rewrite take_all_tokens.
  destruct (decide (Exists (λ tok, "="%char ∉ chars tok) (special_region tokens)))
    as [Hs|Hs].
  - destruct (special_loop_malformed tokens ∅ Hs) as (tok & Hin & Hno & ->).
    exists tok. split_and!; [apply elem_of_app; by left | done | done].
  - apply Exists_app in Hbad as [?|Hn]; [done|].
    apply not_Exists_Forall in Hs; [|intros tok; apply _].
    assert (Forall (λ tok, "="%char ∈ chars tok) (special_region tokens)) as Hall.
    { eapply Forall_impl; [exact Hs|]. simpl. intros tok Htok.
      by apply dec_stable. }
    destruct (has_equals_splits _ Hall) as [skvs Hskvs].
    rewrite (special_loop_ok _ _ _ Hskvs). simpl. rewrite after_special_region.
    destruct (normal_loop_malformed (normal_region tokens) ∅ Hn)
      as (tok & Hin & Hno & ->).
    exists tok. split_and!; [apply elem_of_app; by right | done | done].
Qed.

(** ** The key lists of the error messages *)

Lemma sorted_keys_Permutation m : sorted_keys m ≡ₚ (map_to_list m).*1.
Proof. apply merge_sort_Permutation. Qed.

Lemma sorted_keys_StronglySorted m : StronglySorted String.le (sorted_keys m).
Proof. apply (StronglySorted_merge_sort _). Qed.

Lemma sorted_keys_NoDup m : NoDup (sorted_keys m).
Proof. rewrite sorted_keys_Permutation. apply NoDup_fst_map_to_list. Qed.

Lemma elem_of_sorted_keys m k : k ∈ sorted_keys m ↔ is_Some (m !! k).
Proof.
  rewrite sorted_keys_Permutation, list_elem_of_fmap. split.
  - intros ([k' v] & -> & Hkv). apply elem_of_map_to_list in Hkv. by exists v.
  - intros [v Hv]. exists (k, v). split; [done | by apply elem_of_map_to_list].
Qed.

(** [std::unordered_map] fixes no iteration order. Whatever order the keys
    are gathered in, sorting yields the same list. *)
Lemma sorted_keys_any_order m (keys : list string) :
  keys ≡ₚ (map_to_list m).*1 → merge_sort String.le keys = sorted_keys m.
Proof.
  intros Hperm. apply (StronglySorted_unique String.le).
  - apply (StronglySorted_merge_sort _).
  - apply sorted_keys_StronglySorted.
  - by rewrite merge_sort_Permutation, sorted_keys_Permutation.
Qed.

Lemma sorted_keys_empty : sorted_keys ∅ = [].
Proof. unfold sorted_keys. by rewrite map_to_list_empty. Qed.

(** The keys are quoted one by one and joined with a comma and a space. *)
Lemma joined_and_quoted_loop_true keys :
  joined_and_quoted_loop true keys =
    match keys with
    | [] => ""
    | _ => ", " +:+ String.concat ", " (StdString.quoted <$> keys)
    end.
Proof.
  induction keys as [|k keys IH]; [done|].
  cbn [joined_and_quoted_loop fmap list_fmap String.concat]. rewrite IH.
  destruct keys as [|k' keys]; cbn [fmap list_fmap].
  - by rewrite string_app_nil_r.
  - done.
Qed.

Lemma joined_and_quoted_concat sep keys :
  joined_and_quoted sep keys = String.concat ", " (StdString.quoted <$> keys).
Proof.
  unfold joined_and_quoted. destruct keys as [|k keys]; [done|].
  cbn [joined_and_quoted_loop]. rewrite joined_and_quoted_loop_true.
  destruct keys as [|k' keys]; cbn [fmap list_fmap String.concat].
  - by rewrite string_app_nil_r.
  - done.
Qed.

(** ** [parse_commandline]: what it does with the result of [separate_argv] *)

Lemma argc_skip (argv0 : string) (tokens : list string) :
  Z.of_nat (length (argv0 :: tokens)) - 1 = Z.of_nat (length tokens).
Proof. simpl length. lia. Qed.

Lemma parse_commandline_ext argc argv argc' argv' config :
  separate_argv (argc - 1) (drop 1 argv) "--" =
    separate_argv (argc' - 1) (drop 1 argv') "--" →
  parse_commandline argc argv config = parse_commandline argc' argv' config.
Proof. unfold parse_commandline. by intros ->. Qed.

Lemma parse_commandline_separate_Throw argc argv config e :
  separate_argv (argc - 1) (drop 1 argv) "--" = Throw e →
  parse_commandline argc argv config = Throw e.
Proof. unfold parse_commandline. by intros ->. Qed.

Lemma parse_commandline_args_normal argc argv config special normal args :
  separate_argv (argc - 1) (drop 1 argv) "--" = Return (special, normal) →
  parse_commandline argc argv config = Return args →
  m_args args = normal.
Proof.
  unfold parse_commandline. intros ->. simpl.
  destruct (special !! _); [|done].
  destruct (delete _ special !! _); [|done].
  case_decide; [done|].
  destruct (convert_str_to_ul "job_id" _); [|done]. simpl.
  destruct (convert_str_to_ul "repetition_id" _); [|done]. simpl.
  by intros [= <-].
Qed.

(** ** The claims *)

(** C1. After the program name, the tokens [--id=4 --rep=7 -- a=b] decode to
    an [Args] with job id 4 and repetition id 7; [get_s("a")] then returns
    ["b"], and a following [get_s("nonexistent")] fails with the
    missing-parameter error. *)
Theorem decodes_ids (argv0 : string) :
  ∃ args args',
    invoke [argv0; "--id=4"; "--rep=7"; "--"; "a=b"] default_config = Return args ∧
    job_id args = 4 ∧ repetition_id args = 7 ∧
    get_s "a" args = (Return "b", args') ∧
    (get_s "nonexistent" args').1 = Throw (MissingParameterError "nonexistent").
Proof.
  eexists _, _. unfold invoke, parse_commandline. cbn [drop length].
  split_and!; [vm_compute; reflexivity | done | done | vm_compute; reflexivity | done].
Qed.

(** C6. For a name bound to [s] in the remaining map, [get_b] returns true
    exactly for ["True"] and ["true"], false exactly for ["False"] and
    ["false"], and fails with its coercion error for every other string. *)
Theorem get_b_literals (name s : string) (self : Args) :
  m_args self !! name = Some s →
  ((get_b name self).1 = Return true ↔ s = "True" ∨ s = "true") ∧
  ((get_b name self).1 = Return false ↔ s = "False" ∨ s = "false") ∧
  ((get_b name self).1 = Throw (BoolCoercionError name s) ↔
     s ∉ ["True"; "true"; "False"; "false"]) ∧
  m_args (get_b name self).2 = delete name (m_args self).
Proof.
  intros Hs. unfold get_b, method_bind, get_s. rewrite Hs.
  assert (s ∉ ["True"; "true"; "False"; "false"] ↔
          ¬ (s = "True" ∨ s = "true") ∧ ¬ (s = "False" ∨ s = "false")) as Hother.
  { rewrite !not_elem_of_cons. pose proof (not_elem_of_nil s). tauto. }
  rewrite Hother.
  destruct (decide (s = "True" ∨ s = "true")) as [Ht|Ht];
    [|destruct (decide (s = "False" ∨ s = "false")) as [Hf|Hf]]; simpl.
  - assert (¬ (s = "False" ∨ s = "false")) by (intros [->| ->]; by destruct Ht).
    split_and!; [done | split; [done | tauto] | split; [done | tauto] | done].
  - split_and!; [split; [done | tauto] | done | split; [done | tauto] | done].
  - split_and!; [split; [done | tauto] | split; [done | tauto] | done | done].
Qed.

Lemma get_b_literals_witness :
  (get_b "d" (mkArgs 4 6 {["d" := "False"]})).1 = Return false ∧
  (get_b "d" (mkArgs 4 5 {["d" := "yes"]})).1 = Throw (BoolCoercionError "d" "yes").
Proof.
  split.
  - destruct (get_b_literals "d" "False" (mkArgs 4 6 {["d" := "False"]}))
      as (_ & Hfalse & _ & _); [reflexivity|].
    apply Hfalse. by left.
  - destruct (get_b_literals "d" "yes" (mkArgs 4 5 {["d" := "yes"]}))
      as (_ & _ & Hother & _); [reflexivity|].
    apply Hother. rewrite !not_elem_of_cons.
    split_and!; [done.. | apply not_elem_of_nil].
Defined.

(** C7. [no_further_arguments] is a const member function: it has no
    resulting object state. It returns normally exactly when the remaining
    map is empty; otherwise it fails, and the message lists the remaining
    keys, each once, in ascending order, quoted and joined by [", "]. *)
Theorem no_further_arguments_spec (self : Args) :
  (no_further_arguments self = Return () ↔ m_args self = ∅) ∧
  (m_args self ≠ ∅ →
   ∃ keys,
     no_further_arguments self =
       Throw (MULTIJOB_ERROR ("params were not consumed: "
                +:+ String.concat ", " (StdString.quoted <$> keys))) ∧
     no_further_arguments self = Throw (UnconsumedArgumentsError keys) ∧
     StronglySorted String.le keys ∧ NoDup keys ∧
     ∀ k, k ∈ keys ↔ is_Some (m_args self !! k)).
Proof.
  unfold no_further_arguments. split.
  - case_decide; [done|]. split; [done|]. intros. done.
  - intros Hne. rewrite decide_False by done.
    exists (sorted_keys (m_args self)). split_and!.
    + unfold UnconsumedArgumentsError. by rewrite joined_and_quoted_concat.
    + done.
    + apply sorted_keys_StronglySorted.
    + apply sorted_keys_NoDup.
    + apply elem_of_sorted_keys.
Qed.

Lemma no_further_arguments_spec_witness :
  let self := mkArgs 57 3 {["z" := "y"; "a" := "b"]} in
  m_args self ≠ ∅ ∧
  ∃ keys, no_further_arguments self = Throw (UnconsumedArgumentsError keys) ∧
          StronglySorted String.le keys ∧
          ∀ k, k ∈ keys ↔ is_Some (m_args self !! k).
Proof.
  intros self.
  assert (m_args self ≠ ∅) as Hne by apply insert_non_empty.
  split; [exact Hne|].
  destruct (no_further_arguments_spec self) as [_ Hremain].
  destruct (Hremain Hne) as (keys & _ & Hthrow & Hsorted & _ & Hkeys).
  exists keys. split_and!; [exact Hthrow | exact Hsorted | exact Hkeys].
Defined.

(** ** Typed extraction consumes the name before it coerces *)

Lemma get_s_present name s self :
  m_args self !! name = Some s →
  get_s name self = (Return s, set_args self (delete name (m_args self))).
Proof. unfold get_s. by intros ->. Qed.

Lemma get_s_absent name self :
  m_args self !! name = None →
  get_s name self = (Throw (MissingParameterError name), self).
Proof. unfold get_s. by intros ->. Qed.

Lemma method_bind_lift_state {A} name s self (k : string → outcome A) :
  m_args self !! name = Some s →
  method_bind (get_s name) (λ s, method_lift (k s)) self =
    (k s, set_args self (delete name (m_args self))).
Proof. intros Hs. unfold method_bind. by rewrite (get_s_present _ _ _ Hs). Qed.

Lemma get_i_present name s self :
  m_args self !! name = Some s →
  get_i name self =
    (convert_str_to_i name s, set_args self (delete name (m_args self))).
Proof. apply method_bind_lift_state. Qed.

Lemma get_d_present {double} (stod : string → outcome (double * nat)) name s self :
  m_args self !! name = Some s →
  get_d stod name self =
    (convert_str_to_ld stod name s, set_args self (delete name (m_args self))).
Proof. apply (method_bind_lift_state _ _ _ (convert_str_to_ld stod name)). Qed.

Lemma get_b_state name s self :
  m_args self !! name = Some s →
  (get_b name self).2 = set_args self (delete name (m_args self)).
Proof.
  intros Hs. unfold get_b, method_bind. rewrite (get_s_present _ _ _ Hs).
  by repeat case_decide.
Qed.

Lemma ArgsDirect_get_i_state name s self :
  m_args self !! name = Some s →
  (ArgsDirect.get_i name self).2 = set_args self (delete name (m_args self)).
Proof.
  intros Hs. unfold ArgsDirect.get_i.
  by rewrite (method_bind_lift_state _ _ _ _ Hs).
Qed.

(** C9. A typed extraction that fails in the coercion has already removed
    the name: whichever of [get_i], [get_d], [get_b] (or the earlier direct
    [get_i]) threw, the object it leaves behind no longer holds the name, a
    later [get_s] of it reports a missing parameter, and
    [no_further_arguments] does not list it. *)
Theorem failed_extraction_consumes {double : Type}
    (stod : string → outcome (double * nat))
    (name s : string) (self self' : Args) (e : exception) :
  m_args self !! name = Some s →
  get_i name self = (Throw e, self') ∨
  get_d stod name self = (Throw e, self') ∨
  get_b name self = (Throw e, self') ∨
  ArgsDirect.get_i name self = (Throw e, self') →
  m_args self' = delete name (m_args self) ∧
  m_args self' !! name = None ∧
  get_s name self' = (Throw (MissingParameterError name), self') ∧
  (name ∉ sorted_keys (m_args self')) ∧
  (m_args self ≠ {[name := s]} →
     no_further_arguments self' = Throw (UnconsumedArgumentsError
                                           (sorted_keys (m_args self')))) ∧
  (m_args self = {[name := s]} → no_further_arguments self' = Return ()).
Proof.
  intros Hs Hfail.
  assert (self' = set_args self (delete name (m_args self))) as ->.
  { destruct Hfail as [H|[H|[H|H]]].
    - rewrite (get_i_present _ _ _ Hs) in H. by injection H as _ <-.
    - rewrite (get_d_present _ _ _ _ Hs) in H. by injection H as _ <-.
    - rewrite <-(get_b_state _ _ _ Hs). by rewrite H.
    - rewrite <-(ArgsDirect_get_i_state _ _ _ Hs). by rewrite H. }
  simpl. split_and!.
  - done.
  - apply lookup_delete_eq.
  - apply get_s_absent. simpl. apply lookup_delete_eq.
  - rewrite elem_of_sorted_keys, lookup_delete_eq. by intros [? ?].
  - intros Hne. unfold no_further_arguments. simpl.
    rewrite decide_False; [done|]. intros Hempty. apply Hne.
    rewrite <-(insert_delete_id (m_args self) name s Hs), Hempty. done.
  - intros Hone. unfold no_further_arguments. simpl.
    rewrite decide_True; [done|]. rewrite Hone. apply delete_singleton_eq.
Qed.

Lemma failed_extraction_consumes_witness :
  let self := mkArgs 4 5 {["a" := "4.2"; "c" := "d"]} in
  let self' := mkArgs 4 5 {["c" := "d"]} in
  throws (get_i "a" self).1 ∧
  get_s "a" self' = (Throw (MissingParameterError "a"), self') ∧
  ("a" ∉ sorted_keys (m_args self')).
Proof.
  intros self self'.
  pose (stod := λ _ : string, @Throw (() * nat) (std_invalid_argument "stod")).
  assert (get_i "a" self =
            (Throw (MULTIJOB_ERROR
               ("can't parse a: " +:+ StdString.quoted "4.2"
                  +:+ " is not an integer number")), self')) as Hfail
    by (vm_compute; reflexivity).
  destruct (failed_extraction_consumes stod "a" "4.2" self self' _
              eq_refl (or_introl Hfail)) as (_ & _ & Hgone & Hkeys & _).
  split_and!; [by rewrite Hfail | exact Hgone | exact Hkeys].
Defined.

(** ** The program name and the separator *)

(** C8. [argv[0]] is never parsed. For [argc >= 1] the result, value or
    error, is the same whatever stands at [argv[0]], and it is the result of
    the call whose arguments after the program name are exactly
    [argv[1..argc-1]]. *)
Theorem program_name_is_skipped (argc : Z) (argv0 argv0' : string)
    (rest : list string) (config : JobArgvConfig) :
  1 ≤ argc →
  parse_commandline argc (argv0 :: rest) config =
    parse_commandline argc (argv0' :: rest) config ∧
  parse_commandline argc (argv0 :: rest) config =
    invoke (argv0' :: take (Z.to_nat (argc - 1)) rest) config.
Proof.
  intros Hargc. split; [done|].
  unfold invoke. apply parse_commandline_ext. rewrite argc_skip.
  unfold separate_argv. cbn [drop]. by rewrite take_all_tokens, !drop_0.
Qed.

Lemma program_name_is_skipped_witness :
  parse_commandline 5 ["self"; "--id=4"; "--rep=7"; "--"; "a=b"] default_config =
    parse_commandline 5 ["no equals sign"; "--id=4"; "--rep=7"; "--"; "a=b"]
      default_config.
Proof.
  apply (program_name_is_skipped 5 "self" "no equals sign"
           ["--id=4"; "--rep=7"; "--"; "a=b"] default_config).
  lia.
Defined.

Lemma special_loop_without_separator tokens acc :
  "--" ∉ tokens →
  special_loop (tokens ++ ["--"]) "--" acc =
    (λ r, (r.1, ["--"])) <$> special_loop tokens "--" acc ∧
  ∀ special pos, special_loop tokens "--" acc = Return (special, pos) → pos = [].
Proof.
  revert acc. induction tokens as [|tok tokens IH]; intros acc Hno.
  - split; [done|]. intros special pos Hret. simpl in Hret. congruence.
  - apply not_elem_of_cons in Hno as [Hne Hno]. simpl.
    destruct (decide (tok = "--")) as [->|_]; [done|].
    destruct (split_arg tok) as [[k v]|e]; simpl; [apply (IH _ Hno) | done].
Qed.

Lemma separate_argv_without_separator tokens :
  "--" ∉ tokens →
  separate_argv (Z.of_nat (length (tokens ++ ["--"]))) (tokens ++ ["--"]) "--" =
    separate_argv (Z.of_nat (length tokens)) tokens "--" ∧
  ∀ special normal,
    separate_argv (Z.of_nat (length tokens)) tokens "--" = Return (special, normal) →
    normal = ∅.
Proof.
  intros Hno. unfold separate_argv. rewrite !take_all_tokens.
  destruct (special_loop_without_separator tokens ∅ Hno) as [-> Hpos].
  destruct (special_loop tokens "--" ∅) as [[special pos]|e]; simpl; [|done].
  rewrite (Hpos special pos eq_refl). simpl. split; [done|].
  by intros ?? [= _ <-].
Qed.

Lemma regions_without_separator tokens :
  "--" ∉ tokens → special_region tokens = tokens ∧ normal_region tokens = [].
Proof.
  induction tokens as [|tok tokens IH]; [done|].
  intros [Hne Hno]%not_elem_of_cons. simpl.
  destruct (decide (tok = "--")) as [->|_]; [done|].
  destruct (IH Hno) as [-> ->]. done.
Qed.

(** C10. Leaving out the ["--"] separator is not an error of its own. When
    no token is a bare ["--"], every token lies in the special region, the
    parameter map is empty, and the call gives the result it would give with
    the separator appended after the last token. *)
Theorem missing_separator_is_no_error (argv0 : string) (tokens : list string)
    (config : JobArgvConfig) :
  "--" ∉ tokens →
  special_region tokens = tokens ∧ normal_region tokens = [] ∧
  invoke (argv0 :: tokens) config = invoke (argv0 :: tokens ++ ["--"]) config ∧
  (∀ special normal,
     separate_argv (Z.of_nat (length tokens)) tokens "--" =
       Return (special, normal) → normal = ∅) ∧
  (∀ args, invoke (argv0 :: tokens) config = Return args → m_args args = ∅).
Proof.
  intros Hno.
  destruct (regions_without_separator tokens Hno) as [Hs Hn].
  destruct (separate_argv_without_separator tokens Hno) as [Happ Hnormal].
  split_and!; [done | done | | done |].
  - unfold invoke. apply parse_commandline_ext.
    rewrite argc_skip, (argc_skip argv0 (tokens ++ ["--"])). cbn [drop].
    by rewrite !drop_0, Happ.
  - intros args Hargs. unfold invoke in Hargs.
    destruct (separate_argv (Z.of_nat (length (argv0 :: tokens)) - 1)
                (drop 1 (argv0 :: tokens)) "--") as [[special normal]|e] eqn:Hsep.
    + rewrite (parse_commandline_args_normal _ _ _ _ _ _ Hsep Hargs).
      rewrite argc_skip in Hsep. cbn [drop] in Hsep. rewrite drop_0 in Hsep.
      by eapply Hnormal.
    + by rewrite (parse_commandline_separate_Throw _ _ _ _ Hsep) in Hargs.
Qed.

Lemma missing_separator_is_no_error_witness :
  invoke ["self"; "--id=4"; "--rep=7"] default_config = Return (mkArgs 4 7 ∅) ∧
  invoke ["self"; "--id=4"; "--rep=7"] default_config =
    invoke ["self"; "--id=4"; "--rep=7"; "--"] default_config.
Proof.
  split; [vm_compute; reflexivity|].
  apply (missing_separator_is_no_error "self" ["--id=4"; "--rep=7"] default_config).
  rewrite !not_elem_of_cons. split_and!; [done.. | apply not_elem_of_nil].
Defined.

(** ** Key/value tokens *)

(** C5. Every token of either region is split at its first [=]: the key is
    what precedes it, the value all that follows, further [=] included. When
    every token has an [=], the two maps are the pairs so obtained, assigned
    from left to right. A token of either region without any [=] makes
    [parse_commandline] fail with the malformed-argument error, which quotes
    such a token. *)
Theorem tokens_split_at_first_equals (argv0 : string) (tokens : list string)
    (config : JobArgvConfig) :
  (∀ k v, "="%char ∉ chars k → split_arg (k +:+ "=" +:+ v) = Return (k, v)) ∧
  (∀ tok, "="%char ∉ chars tok →
     split_arg tok = Throw (MalformedArgumentError tok)) ∧
  (Forall (λ tok, "="%char ∈ chars tok)
     (special_region tokens ++ normal_region tokens) →
   ∃ skvs nkvs,
     Forall2 splits_at_first_equals (special_region tokens) skvs ∧
     Forall2 splits_at_first_equals (normal_region tokens) nkvs ∧
     separate_argv (Z.of_nat (length tokens)) tokens "--" =
       Return (assign_all skvs, assign_all nkvs)) ∧
  (Exists (λ tok, "="%char ∉ chars tok)
     (special_region tokens ++ normal_region tokens) →
   ∃ tok, tok ∈ special_region tokens ++ normal_region tokens ∧
     ("="%char ∉ chars tok) ∧
     invoke (argv0 :: tokens) config = Throw (MalformedArgumentError tok)).
Proof.
  split_and!.
  - apply split_arg_key_value.
  - apply split_arg_malformed.
  - intros [Hs Hn]%Forall_app.
    destruct (has_equals_splits _ Hs) as [skvs Hskvs].
    destruct (has_equals_splits _ Hn) as [nkvs Hnkvs].
    exists skvs, nkvs. split_and!; [done | done |].
    by apply separate_argv_ok.
  - intros Hbad.
    destruct (separate_argv_malformed tokens Hbad) as (tok & Hin & Hno & Hsep).
    exists tok. split_and!; [done | done |].
    unfold invoke. apply parse_commandline_separate_Throw.
    by rewrite argc_skip.
Qed.

Lemma tokens_split_at_first_equals_witness :
  split_arg "a=b=c" = Return ("a", "b=c") ∧
  ∃ tok, invoke ["self"; "--id=0"; "--rep=0"; "--"; "x"] default_config =
           Throw (MalformedArgumentError tok).
Proof.
  destruct (tokens_split_at_first_equals "self"
              ["--id=0"; "--rep=0"; "--"; "x"] default_config)
    as (Hkv & _ & _ & Hbad).
  split.
  - apply (Hkv "a" "b=c"). by_evaluation.
  - destruct Hbad as (tok & _ & _ & Hthrow); [|by exists tok].
    apply Exists_exists. exists "x". split; by_evaluation.
Defined.

(** ** The special arguments *)

Lemma assign_all_None kvs k : assign_all kvs !! k = None ↔ k ∉ kvs.*1.
Proof.
  unfold assign_all. rewrite <-not_elem_of_list_to_map, fmap_reverse.
  by rewrite elem_of_reverse.
Qed.

Lemma assign_all_is_Some kvs k : is_Some (assign_all kvs !! k) ↔ k ∈ kvs.*1.
Proof.
  rewrite <-not_eq_None_Some, assign_all_None.
  split; [apply dec_stable | by intros ? ?].
Qed.

Section special_arguments.
Context (argc : Z) (argv : list string) (config : JobArgvConfig).
Context (special normal : gmap string string).
Context (Hsep : separate_argv (argc - 1) (drop 1 argv) "--" =
                  Return (special, normal)).

Lemma parse_commandline_missing_job_id :
  special !! job_id_key config = None →
  parse_commandline argc argv config =
    Throw (MissingSpecialArgumentError "job_id" (job_id_key config)).
Proof. unfold parse_commandline. rewrite Hsep. simpl. by intros ->. Qed.

Lemma parse_commandline_missing_repetition_id :
  is_Some (special !! job_id_key config) →
  delete (job_id_key config) special !! repetition_id_key config = None →
  parse_commandline argc argv config =
    Throw (MissingSpecialArgumentError "repetition_id"
             (repetition_id_key config)).
Proof.
  unfold parse_commandline. rewrite Hsep. simpl. by intros [? ->] ->.
Qed.

Lemma parse_commandline_unknown :
  is_Some (special !! job_id_key config) →
  is_Some (delete (job_id_key config) special !! repetition_id_key config) →
  delete (repetition_id_key config) (delete (job_id_key config) special) ≠ ∅ →
  parse_commandline argc argv config =
    Throw (UnknownSpecialArgumentError
             (sorted_keys (delete (repetition_id_key config)
                             (delete (job_id_key config) special)))).
Proof.
  unfold parse_commandline. rewrite Hsep. simpl. intros [? ->] [? ->] Hne.
  by rewrite decide_True by by apply map_size_non_empty_iff.
Qed.

Lemma parse_commandline_ids job_id_str repetition_id_str :
  special !! job_id_key config = Some job_id_str →
  delete (job_id_key config) special !! repetition_id_key config =
    Some repetition_id_str →
  delete (repetition_id_key config) (delete (job_id_key config) special) = ∅ →
  parse_commandline argc argv config =
    job_id ← ID <$> convert_str_to_ul "job_id" job_id_str;
    repetition_id ← ID <$> convert_str_to_ul "repetition_id" repetition_id_str;
    Return (mkArgs job_id repetition_id normal).
Proof.
  unfold parse_commandline. rewrite Hsep. simpl. intros -> -> Hempty.
  rewrite decide_False; [done|]. intros Hsize. by apply map_size_non_empty_iff in Hsize.
Qed.
End special_arguments.

(** C4, as the code has it. Splitting comes first: on tokens that all
    contain an [=], [parse_commandline] fails with the
    missing-special-argument error when the job-id key, or else the
    repetition-id key, is not a key of the special region. When both are
    there, are two different keys, and other keys are there too, it fails
    with the unknown-special-argument error, whose message lists exactly
    those other keys, each once, in ascending order, quoted and joined by
    [", "]. *)
Theorem special_arguments_checked (argv0 : string) (tokens : list string)
    (config : JobArgvConfig) (skvs nkvs : list (string * string)) :
  Forall2 splits_at_first_equals (special_region tokens) skvs →
  Forall2 splits_at_first_equals (normal_region tokens) nkvs →
  (job_id_key config ∉ skvs.*1 →
   invoke (argv0 :: tokens) config =
     Throw (MissingSpecialArgumentError "job_id" (job_id_key config))) ∧
  (job_id_key config ∈ skvs.*1 → repetition_id_key config ∉ skvs.*1 →
   invoke (argv0 :: tokens) config =
     Throw (MissingSpecialArgumentError "repetition_id"
              (repetition_id_key config))) ∧
  (job_id_key config ∈ skvs.*1 → repetition_id_key config ∈ skvs.*1 →
   job_id_key config ≠ repetition_id_key config →
   (∃ k, k ∈ skvs.*1 ∧ k ≠ job_id_key config ∧ k ≠ repetition_id_key config) →
   ∃ keys,
     invoke (argv0 :: tokens) config = Throw (UnknownSpecialArgumentError keys) ∧
     invoke (argv0 :: tokens) config =
       Throw (MULTIJOB_ERROR
         ("unknown special arguments before " +:+ StdString.quoted "--"
            +:+ " separator: "
            +:+ String.concat ", " (StdString.quoted <$> keys))) ∧
     StronglySorted String.le keys ∧ NoDup keys ∧
     ∀ k, k ∈ keys ↔
          k ∈ skvs.*1 ∧ k ≠ job_id_key config ∧ k ≠ repetition_id_key config).
Proof.
  intros Hs Hn.
  assert (separate_argv (Z.of_nat (length (argv0 :: tokens)) - 1)
            (drop 1 (argv0 :: tokens)) "--" =
          Return (assign_all skvs, assign_all nkvs)) as Hsep.
  { rewrite argc_skip. cbn [drop]. rewrite drop_0. by apply separate_argv_ok. }
  unfold invoke. split_and!.
  - intros Hid. apply (parse_commandline_missing_job_id _ _ _ _ _ Hsep).
    by apply assign_all_None.
  - intros Hid Hrep.
    apply (parse_commandline_missing_repetition_id _ _ _ _ _ Hsep).
    + by apply assign_all_is_Some.
    + apply lookup_delete_None. right. by apply assign_all_None.
  - intros Hid Hrep Hne (other & Hother & Hother_id & Hother_rep).
    set (others := delete (repetition_id_key config)
                     (delete (job_id_key config) (assign_all skvs))).
    assert (∀ k, is_Some (others !! k) ↔
                 k ∈ skvs.*1 ∧ k ≠ job_id_key config ∧
                 k ≠ repetition_id_key config) as Hothers.
    { intros k. unfold others.
      rewrite !lookup_delete_is_Some, assign_all_is_Some.
      split; intros (? & ? & ?); split_and!; congruence. }
    assert (parse_commandline (Z.of_nat (length (argv0 :: tokens)))
              (argv0 :: tokens) config =
            Throw (UnknownSpecialArgumentError (sorted_keys others))) as Hthrow.
    { apply (parse_commandline_unknown _ _ _ _ _ Hsep).
      - by apply assign_all_is_Some.
      - apply lookup_delete_is_Some. split; [done | by apply assign_all_is_Some].
      - fold others. intros Hempty.
        assert (is_Some (others !! other)) as [? Hsome] by by apply Hothers.
        by rewrite Hempty, lookup_empty in Hsome. }
    exists (sorted_keys others). split_and!.
    + done.
    + rewrite Hthrow. unfold UnknownSpecialArgumentError.
      by rewrite joined_and_quoted_concat.
    + apply sorted_keys_StronglySorted.
    + apply sorted_keys_NoDup.
    + intros k. by rewrite elem_of_sorted_keys, Hothers.
Qed.

Lemma special_arguments_checked_witness :
  ∃ keys,
    invoke ["self"; "--id=0"; "--rep=0"; "--this-doesnt-exist=0"; "--"]
      default_config = Throw (UnknownSpecialArgumentError keys) ∧
    ∀ k, k ∈ keys ↔
         k ∈ ["--id"; "--rep"; "--this-doesnt-exist"] ∧ k ≠ "--id" ∧ k ≠ "--rep".
Proof.
  destruct (special_arguments_checked "self"
              ["--id=0"; "--rep=0"; "--this-doesnt-exist=0"; "--"]
              default_config
              [("--id", "0"); ("--rep", "0"); ("--this-doesnt-exist", "0")] [])
    as (_ & _ & Hunknown); [by_evaluation | by_evaluation |].
  destruct Hunknown as (keys & Hthrow & _ & _ & _ & Hkeys).
  - by_evaluation.
  - by_evaluation.
  - done.
  - exists "--this-doesnt-exist". split_and!; [by_evaluation | done | done].
  - exists keys. split; [exact Hthrow | exact Hkeys].
Defined.

(** Both regions are split before any key is looked up: with the job-id key
    absent from a well-formed special region, a token without [=] after the
    separator decides the error. *)
Lemma malformed_token_reported_first :
  special_region ["--rep=0"; "--"; "x"] = ["--rep=0"] ∧
  invoke ["self"; "--rep=0"; "--"; "x"] default_config =
    Throw (MalformedArgumentError "x") ∧
  invoke ["self"; "--rep=0"; "--"; "x"] default_config ≠
    Throw (MissingSpecialArgumentError "job_id" "--id").
Proof.
  split_and!; [reflexivity | vm_compute; reflexivity |].
  intros Heq. vm_compute in Heq. discriminate Heq.
Qed.

(** ** Numerals *)

Section decimal_numerals.
Import Decimal.

Lemma scan_digits_positive (d : uint) (acc : positive) :
  scan_digits 10 (NilEmpty.string_of_uint d) (Z.pos acc) =
    (Z.pos (Pos.of_uint_acc d acc),
     String.length (NilEmpty.string_of_uint d)).
Proof.
  revert acc. induction d as [|d IH|d IH|d IH|d IH|d IH|d IH|d IH|d IH|d IH|d IH];
    intros acc; [done|..];
    cbn [NilEmpty.string_of_uint scan_digits String.length Pos.of_uint_acc];
    match goal with
    | |- context [digit_in_base 10 ?c] =>
        change (digit_in_base 10 c) with (Some (Z.of_N (N_of_ascii c) - 48))
    end;
    cbn [N_of_ascii N_of_digits Z.of_N];
    match goal with
    | |- context [scan_digits 10 _ ?a] =>
        match goal with
        | |- context [Pos.of_uint_acc d ?p] =>
            replace a with (Z.pos p) by lia
        end
    end;
    by rewrite IH.
Qed.

Lemma scan_digits_uint (d : uint) :
  scan_digits 10 (NilEmpty.string_of_uint d) 0 =
    (Z.of_N (N.of_uint d), String.length (NilEmpty.string_of_uint d)).
Proof.
  induction d as [|d IH|d IH|d IH|d IH|d IH|d IH|d IH|d IH|d IH|d IH];
    [done | ..];
    cbn [NilEmpty.string_of_uint scan_digits String.length];
    match goal with
    | |- context [digit_in_base 10 ?c] =>
        change (digit_in_base 10 c) with (Some (Z.of_N (N_of_ascii c) - 48))
    end;
    cbn [N_of_ascii N_of_digits Z.of_N];
    match goal with
    | |- context [scan_digits 10 _ ?a] =>
        let p := eval vm_compute in a in
        change a with p
    end;
    first [by rewrite IH | by rewrite scan_digits_positive].
Qed.

(** A numeral is ["0"], or it starts with a digit from 1 to 9. *)
Lemma to_uint_head (n : N) :
  N.to_uint n = zero ∨
  ∃ c d, NilEmpty.string_of_uint (N.to_uint n) =
           String c (NilEmpty.string_of_uint d) ∧
         c ∈ ["1"; "2"; "3"; "4"; "5"; "6"; "7"; "8"; "9"]%char.
Proof.
  destruct n as [|p]; [by left | right]. simpl.
  pose proof (DecimalPos.Unsigned.to_of (Pos.to_uint p)) as Hnorm.
  rewrite DecimalPos.Unsigned.of_to in Hnorm. simpl in Hnorm.
  pose proof (DecimalPos.Unsigned.to_uint_nonzero p) as Hnz.
  assert (nzhead (Pos.to_uint p) = Pos.to_uint p) as Hhead.
  { unfold unorm in Hnorm. destruct (nzhead (Pos.to_uint p)); congruence. }
  pose proof (DecimalPos.Unsigned.to_uint_nonnil p) as Hnn.
  destruct (Pos.to_uint p) as [|d|d|d|d|d|d|d|d|d|d] eqn:Hd; [done| |..].
  { by apply DecimalFacts.nzhead_nonzero in Hhead. }
  all: eexists _, d; split; [reflexivity | by_evaluation].
Qed.

Lemma decimal_string (n : N) :
  decimal_numeral n = NilEmpty.string_of_uint (N.to_uint n).
Proof.
  unfold decimal_numeral, NilZero.string_of_uint.
  pose proof (DecimalN.Unsigned.to_of (N.to_uint n)) as Hnorm.
  rewrite DecimalN.Unsigned.of_to in Hnorm.
  destruct (N.to_uint n); [|done..].
  by apply eq_sym, DecimalFacts.unorm_nonnil in Hnorm.
Qed.

Lemma scan_integer_digit_led c rest v n :
  isspace c = false → c ≠ "-"%char → c ≠ "+"%char → c ≠ "0"%char →
  scan_digits 10 (String c rest) 0 = (v, S n) →
  scan_integer 0 (String c rest) = Some (Scanned false v (S n)).
Proof.
  intros Hspace Hminus Hplus Hzero Hscan.
  unfold scan_integer. cbn [skip_space]. rewrite Hspace.
  unfold scan_sign. rewrite !decide_False by done.
  assert (scan_body 0 (String c rest) = Some (v, S n)) as ->; [|done].
  unfold scan_body, leading_zero.
  rewrite (bool_decide_eq_false_2 _ Hzero). cbn [andb Z.eqb].
  rewrite Hscan. by destruct rest.
Qed.

Lemma scan_integer_decimal (n : N) :
  scan_integer 0 (decimal_numeral n) =
    Some (Scanned false (Z.of_N n) (String.length (decimal_numeral n))).
Proof.
  rewrite decimal_string.
  destruct (to_uint_head n) as [Hzero|(c & d & Hs & Hc)].
  - rewrite Hzero. apply (f_equal N.of_uint) in Hzero.
    rewrite DecimalN.Unsigned.of_to in Hzero. subst n. reflexivity.
  - pose proof (scan_digits_uint (N.to_uint n)) as Hscan.
    rewrite DecimalN.Unsigned.of_to, Hs in Hscan. rewrite Hs.
    rewrite !elem_of_cons in Hc.
    destruct Hc as [->|[->|[->|[->|[->|[->|[->|[->|[->|Hc]]]]]]]]];
      [..|by apply elem_of_nil in Hc];
      (apply scan_integer_digit_led;
       [reflexivity | discriminate | discriminate | discriminate | exact Hscan]).
Qed.
End decimal_numerals.

Lemma stoul_decimal (n : N) :
  (Z.of_N n ≤ ULONG_MAX)%Z →
  stoul (decimal_numeral n) 0 = Return (Z.of_N n, StdString.size (decimal_numeral n)).
Proof.
  intros Hn. unfold stoul. rewrite scan_integer_decimal. simpl.
  by rewrite (proj2 (Z.ltb_ge _ _) Hn).
Qed.

Lemma stoi_decimal (n : N) :
  (Z.of_N n ≤ INT_MAX)%Z →
  stoi (decimal_numeral n) 0 = Return (Z.of_N n, StdString.size (decimal_numeral n)).
Proof.
  intros Hn. unfold stoi. rewrite scan_integer_decimal. simpl.
  unfold INT_MAX in Hn.
  rewrite (proj2 (Z.ltb_ge (Z.of_N n) LONG_MIN)) by (unfold LONG_MIN; lia).
  rewrite (proj2 (Z.ltb_ge LONG_MAX (Z.of_N n))) by (unfold LONG_MAX; lia).
  rewrite (proj2 (Z.ltb_ge (Z.of_N n) INT_MIN)) by (unfold INT_MIN; lia).
  rewrite (proj2 (Z.ltb_ge INT_MAX (Z.of_N n))) by (unfold INT_MAX; lia).
  done.
Qed.

(** ** Coercion errors *)

Lemma prefix_app part after : String.prefix part (part +:+ after) = true.
Proof.
  induction part as [|a part IH]; simpl; [by destruct after|].
  by destruct (ascii_dec a a).
Qed.

Lemma prefix_inv part msg :
  String.prefix part msg = true → ∃ after, msg = part +:+ after.
Proof.
  revert msg. induction part as [|a part IH]; intros msg.
  - intros _. by exists msg.
  - destruct msg as [|b msg]; simpl; [done|].
    destruct (ascii_dec a b) as [->|]; [|done].
    intros [after ->]%IH. by exists after.
Qed.

Lemma is_mentioned_spec part msg : is_mentioned part msg = true ↔ mentions msg part.
Proof.
  unfold mentions. split.
  - induction msg as [|b msg IH]; cbn [is_mentioned]; rewrite orb_true_iff.
    + intros [[after Heq]%prefix_inv|?]; [|done]. by exists "", after.
    + intros [[after Heq]%prefix_inv|(before & after & Heq)%IH].
      * by exists "", after.
      * exists (String b before), after. by rewrite Heq.
  - intros (before & after & ->).
    induction before as [|b before IH].
    + change ("" +:+ part +:+ after) with (part +:+ after).
      destruct (part +:+ after) eqn:Heq; cbn [is_mentioned];
        rewrite <-Heq, prefix_app; done.
    + change (String b before +:+ part +:+ after)
        with (String b (before +:+ part +:+ after)).
      cbn [is_mentioned]. rewrite IH. apply orb_true_r.
Qed.

Lemma mentions_app_l msg part rest : mentions msg part → mentions (msg +:+ rest) part.
Proof.
  intros (before & after & ->). exists before, (after +:+ rest).
  by rewrite !string_app_assoc.
Qed.

Lemma mentions_app_r msg part rest : mentions msg part → mentions (rest +:+ msg) part.
Proof.
  intros (before & after & ->). exists (rest +:+ before), after.
  by rewrite !string_app_assoc.
Qed.

Lemma mentions_refl part : mentions part part.
Proof. exists "", "". by rewrite string_app_nil_r. Qed.

(** [convert], case by case. *)
Lemma convert_cases {Result} type_descr name s
    (converter : string → outcome (Result * nat)) :
  convert type_descr name s converter =
    match converter s with
    | Throw (std_invalid_argument what) =>
        Throw (CoercionError type_descr name s (not_parseable what))
    | Throw (std_out_of_range what) =>
        Throw (CoercionError type_descr name s (out_of_range what))
    | Throw e => Throw e
    | Return (result, consumed_chars) =>
        if decide (consumed_chars = StdString.size s) then Return result
        else Throw (CoercionError type_descr name s trailing_characters)
    end.
Proof.
  unfold convert. destruct (converter s) as [[result n]|[]]; try done.
  by repeat case_decide.
Qed.

Lemma CoercionError_mentions type_descr name s why :
  ∃ msg, CoercionError type_descr name s why = MultijobError msg ∧
    mentions msg name ∧ mentions msg (StdString.quoted s) ∧
    match why with
    | out_of_range _ => mentions msg "is out of range"
    | _ => mentions msg type_descr
    end.
Proof.
  eexists. split; [reflexivity|]. split_and!.
  - do 2 apply mentions_app_r. apply mentions_app_l, mentions_refl.
  - do 4 apply mentions_app_r. apply mentions_app_l, mentions_refl.
  - destruct why; do 5 apply mentions_app_r.
    + apply (mentions_app_r _ _ " is not "), mentions_app_l, mentions_refl.
    + by exists " ", (": " +:+ what).
    + apply (mentions_app_r _ _ " is not "), mentions_refl.
Qed.

Lemma CoercionError_out_of_range_distinct type_descr name s what why :
  (∀ what', why ≠ out_of_range what') →
  CoercionError type_descr name s (out_of_range what) ≠
    CoercionError type_descr name s why.
Proof.
  intros Hwhy. unfold CoercionError, MULTIJOB_ERROR. intros [= Heq].
  do 4 apply String.app_inj in Heq.
  destruct why; [done | by eapply Hwhy | done].
Qed.

(** ** [std::stoi] and [std::stoul] on sample inputs *)

Example stoi_403 : stoi "403" 0 = Return (403, 3%nat).
Proof. reflexivity. Qed.

Example stoi_negative : stoi "-17" 0 = Return (-17, 3%nat).
Proof. reflexivity. Qed.

Example stoi_stops_at_dot : stoi "4.2" 0 = Return (4, 1%nat).
Proof. reflexivity. Qed.

Example stoi_hexadecimal : stoi "0x1F" 0 = Return (31, 4%nat).
Proof. reflexivity. Qed.

Example stoi_no_digits : stoi "abc" 0 = Throw (std_invalid_argument "stoi").
Proof. reflexivity. Qed.

Example stoi_too_large :
  stoi "2147483648" 0 = Throw (std_out_of_range "stoi").
Proof. reflexivity. Qed.

Example stoul_minus_five : stoul "-5" 0 = Return (2 ^ 64 - 5, 2%nat).
Proof. reflexivity. Qed.

Example stoul_octal : stoul "010" 0 = Return (8, 3%nat).
Proof. reflexivity. Qed.

Lemma stoi_never_MultijobError s base what :
  stoi s base ≠ Throw (MultijobError what).
Proof.
  unfold stoi. destruct (scan_integer base s); [|done].
  by repeat case_match.
Qed.

Lemma stoul_never_MultijobError s base what :
  stoul s base ≠ Throw (MultijobError what).
Proof.
  unfold stoul. destruct (scan_integer base s); [|done].
  by repeat case_match.
Qed.

(** Text that does not start like a number is not converted. *)
Lemma stoul_non_numeric (s : string) :
  (s = "" ∨ ∃ c rest, s = String c rest ∧ isspace c = false ∧
                      c ≠ "+"%char ∧ c ≠ "-"%char ∧ digit_in_base 10 c = None) →
  stoul s 0 = Throw (std_invalid_argument "stoul").
Proof.
  intros [->|(c & rest & -> & Hspace & Hplus & Hminus & Hdigit)];
    [reflexivity|].
  assert (c ≠ "0"%char) as Hzero by (intros ->; discriminate Hdigit).
  unfold stoul, scan_integer. cbn [skip_space]. rewrite Hspace.
  unfold scan_sign. rewrite !decide_False by assumption.
  assert (scan_body 0 (String c rest) = None) as ->; [|reflexivity].
  unfold scan_body, leading_zero.
  rewrite (bool_decide_eq_false_2 _ Hzero). cbn [andb Z.eqb scan_digits].
  rewrite Hdigit. by destruct rest.
Qed.

(** What [std::stoi] and [std::stoul] convert in full is an integer
    literal. *)
Lemma scan_digits_all base s acc v :
  scan_digits base s acc = (v, String.length s) → all_digits base s.
Proof.
  revert acc. induction s as [|c s IH]; intros acc; [by constructor|].
  cbn [scan_digits String.length].
  destruct (digit_in_base base c) as [d|] eqn:Hd; [|by intros [= _ ?]].
  destruct (scan_digits base s (acc * base + d)) as [v' n] eqn:Hscan.
  intros [= -> ->]. constructor; [by rewrite Hd | by eapply IH].
Qed.

Lemma skip_space_spec s :
  ∃ space, s = space +:+ (skip_space s).2 ∧
    String.length space = (skip_space s).1 ∧
    Forall (λ c, isspace c = true) (chars space).
Proof.
  induction s as [|c s (space & Hs & Hlen & Hspace)].
  - exists "". split_and!; [done | done | constructor].
  - cbn [skip_space]. destruct (isspace c) eqn:Hc.
    + destruct (skip_space s) as [n s']. simpl in *.
      exists (String c space).
      split_and!; [by rewrite Hs at 1 | by rewrite <-Hlen | by constructor].
    + exists "". split_and!; [done | done | constructor].
Qed.

Lemma scan_sign_spec s :
  ∃ sign, s = sign +:+ (scan_sign s).2 ∧
    String.length sign = (scan_sign s).1.2 ∧ sign ∈ [""; "+"; "-"].
Proof.
  destruct s as [|c s]; cbn [scan_sign].
  - exists "". split_and!; [done | done | by_evaluation].
  - repeat case_decide; subst.
    + exists "-". split_and!; [done | done | by_evaluation].
    + exists "+". split_and!; [done | done | by_evaluation].
    + exists "". split_and!; [done | done | by_evaluation].
Qed.

Lemma scan_body_full s v :
  scan_body 0 s = Some (v, String.length s) → literal_body s.
Proof.
  assert (∀ digits,
    (let b := if 0 =? 0 then (if leading_zero digits then 8 else 10) else 0 in
     match scan_digits b digits 0 with
     | (_, O) => None
     | (v', n) => Some (v', n)
     end) = Some (v, String.length digits) → literal_body digits) as Hplain.
  { intros digits. cbn [Z.eqb].
    destruct (leading_zero digits) eqn:Hzero; cbn zeta.
    - destruct (scan_digits 8 digits 0) as [v' [|n]] eqn:Hscan; [done|].
      intros [= -> Hlen]. rewrite Hlen in Hscan.
      apply scan_digits_all in Hscan.
      destruct digits as [|c digits]; [done|]. simpl in Hzero.
      apply bool_decide_eq_true in Hzero as ->.
      right; left. exists digits. split; [done|].
      by apply Forall_cons in Hscan as [_ ?].
    - destruct (scan_digits 10 digits 0) as [v' [|n]] eqn:Hscan; [done|].
      intros [= -> Hlen]. rewrite Hlen in Hscan.
      apply scan_digits_all in Hscan.
      left. split_and!; [by destruct digits | done | done]. }
  unfold scan_body. destruct s as [|c [|x digits]]; [apply Hplain..|].
  destruct (bool_decide (c = "0"%char) && is_x x && ((0 =? 0) || (0 =? 16)))
    eqn:Hhex; [|apply Hplain].
  apply andb_prop in Hhex as [[Hc Hx]%andb_prop _].
  apply bool_decide_eq_true in Hc as ->.
  destruct (scan_digits 16 digits 0) as [v' [|n]] eqn:Hscan; [done|].
  cbn [String.length]. intros [= -> Hlen]. rewrite Hlen in Hscan.
  apply scan_digits_all in Hscan.
  right; right. exists x, digits. split_and!; [done | done | | done].
  by destruct digits.
Qed.

Lemma scan_integer_full s sc :
  scan_integer 0 s = Some sc → sc_end sc = String.length s → integer_literal s.
Proof.
  unfold scan_integer.
  destruct (skip_space_spec s) as (space & Hs & Hspace_len & Hspace).
  destruct (skip_space s) as [nws s1]. simpl in *.
  destruct (scan_sign_spec s1) as (sign & Hs1 & Hsign_len & Hsign).
  destruct (scan_sign s1) as [[neg nsign] s2]. simpl in *.
  destruct (scan_body 0 s2) as [[v n]|] eqn:Hbody; [|done].
  intros [= <-]. simpl. intros Hend.
  exists space, sign, s2. split_and!; [by rewrite Hs, Hs1 at 1 | done | done |].
  apply (scan_body_full s2 v). rewrite Hbody. do 2 f_equal.
  rewrite Hs, Hs1, !string_app_length in Hend. lia.
Qed.

Lemma stoul_full s v :
  stoul s 0 = Return (v, StdString.size s) → integer_literal s.
Proof.
  unfold stoul. destruct (scan_integer 0 s) as [sc|] eqn:Hscan; [|done].
  case_match; [done|]. intros [= _ Hend]. by eapply scan_integer_full.
Qed.

Lemma stoi_full s v :
  stoi s 0 = Return (v, StdString.size s) → integer_literal s.
Proof.
  unfold stoi. destruct (scan_integer 0 s) as [sc|] eqn:Hscan; [|done].
  repeat case_match; try done; intros [= _ Hend]; by eapply scan_integer_full.
Qed.

(** ** [get_i] *)

(** C3, as the code has it. For a name bound to [s], [get_i] removes the
    name and converts the whole of [s] with [std::stoi] in base 0; a base-10
    numeral of a number that fits an [int] yields that number. It fails with
    the library's coercion error when characters are left over, when nothing
    can be converted, and when the value does not fit an [int]; a string
    that is not an integer literal always fails. The message names the
    parameter and quotes the string in all three cases; it names the
    expected type in the first two, and says "is out of range" in the
    third, which sets the out-of-range failure apart. *)
Theorem get_i_coercion (name s : string) (self : Args) :
  m_args self !! name = Some s →
  m_args (get_i name self).2 = delete name (m_args self) ∧
  (∀ v, stoi s 0 = Return (v, StdString.size s) →
     (get_i name self).1 = Return v) ∧
  (∀ n : N, Z.of_N n ≤ INT_MAX → s = decimal_numeral n →
     (get_i name self).1 = Return (Z.of_N n)) ∧
  (∀ v consumed, stoi s 0 = Return (v, consumed) → consumed ≠ StdString.size s →
     (get_i name self).1 =
       Throw (CoercionError "an integer number" name s trailing_characters)) ∧
  (∀ what, stoi s 0 = Throw (std_invalid_argument what) →
     (get_i name self).1 =
       Throw (CoercionError "an integer number" name s (not_parseable what))) ∧
  (∀ what, stoi s 0 = Throw (std_out_of_range what) →
     (get_i name self).1 =
       Throw (CoercionError "an integer number" name s (out_of_range what))) ∧
  ((∃ v, (get_i name self).1 = Return v) ∨
   (∃ why, (get_i name self).1 =
             Throw (CoercionError "an integer number" name s why))) ∧
  (¬ integer_literal s →
   ∃ why, (get_i name self).1 =
            Throw (CoercionError "an integer number" name s why)) ∧
  (∀ why, ∃ msg,
     CoercionError "an integer number" name s why = MultijobError msg ∧
     mentions msg name ∧ mentions msg (StdString.quoted s) ∧
     match why with
     | out_of_range _ => mentions msg "is out of range"
     | _ => mentions msg "an integer number"
     end) ∧
  (∀ what why, (∀ what', why ≠ out_of_range what') →
     CoercionError "an integer number" name s (out_of_range what) ≠
       CoercionError "an integer number" name s why).
Proof.
  intros Hs. rewrite (get_i_present _ _ _ Hs). simpl.
  unfold convert_str_to_i. rewrite convert_cases.
  split_and!.
  - done.
  - intros v ->. by rewrite decide_True.
  - intros n Hn ->. rewrite (stoi_decimal n Hn). by rewrite decide_True.
  - intros v consumed -> Hne. by rewrite decide_False.
  - by intros what ->.
  - by intros what ->.
  - destruct (stoi s 0) as [[v consumed]|[what|what|what]] eqn:Hstoi.
    + case_decide; [left; by exists v | right; by eexists].
    + by apply stoi_never_MultijobError in Hstoi.
    + right. by eexists.
    + right. by eexists.
  - intros Hnot.
    destruct (stoi s 0) as [[v consumed]|[what|what|what]] eqn:Hstoi.
    + case_decide; [subst; by apply stoi_full in Hstoi | by eexists].
    + by apply stoi_never_MultijobError in Hstoi.
    + by eexists.
    + by eexists.
  - apply CoercionError_mentions.
  - apply CoercionError_out_of_range_distinct.
Qed.

Lemma get_i_coercion_witness :
  (get_i "a" (mkArgs 4 5 {["a" := "-17"]})).1 = Return (-17) ∧
  (get_i "a" (mkArgs 4 5 {["a" := "4.2"]})).1 =
    Throw (CoercionError "an integer number" "a" "4.2" trailing_characters).
Proof.
  split.
  - destruct (get_i_coercion "a" "-17" (mkArgs 4 5 {["a" := "-17"]}))
      as (_ & Hfull & _); [reflexivity|].
    by apply Hfull.
  - destruct (get_i_coercion "a" "4.2" (mkArgs 4 5 {["a" := "4.2"]}))
      as (_ & _ & _ & Hrest & _); [reflexivity|].
    by apply (Hrest 4 1%nat).
Defined.

(** The message of the out-of-range failure carries no description of the
    expected type. *)
Lemma out_of_range_message_omits_type :
  ∃ msg,
    (get_i "a" (mkArgs 4 5 {["a" := "99999999999"]})).1 =
      Throw (MultijobError msg) ∧
    msg = "multijob: can't parse a: " +:+ StdString.quoted "99999999999"
            +:+ " is out of range: stoi" ∧
    ¬ mentions msg "an integer number" ∧ ¬ mentions msg "integer".
Proof.
  eexists. split; [vm_compute; reflexivity|].
  split; [reflexivity|].
  split; intros Hm%is_mentioned_spec; vm_compute in Hm; discriminate Hm.
Qed.

(** The earlier [get_i], calling [std::stoi] directly, lets the standard
    exceptions through. *)
Lemma ArgsDirect_get_i_foreign_exceptions :
  (ArgsDirect.get_i "a" (mkArgs 4 5 {["a" := "abc"]})).1 =
    Throw (std_invalid_argument "stoi") ∧
  (ArgsDirect.get_i "a" (mkArgs 4 5 {["a" := "99999999999"]})).1 =
    Throw (std_out_of_range "stoi") ∧
  (ArgsDirect.get_i "a" (mkArgs 4 5 {["a" := "4.2"]})).1 =
    Throw (ArgsDirect.NotIntegerError "a" "4.2").
Proof. split_and!; vm_compute; reflexivity. Qed.

(** ** The two ids *)

Lemma convert_str_to_ul_Return which s v :
  convert_str_to_ul which s = Return v ↔ stoul s 0 = Return (v, StdString.size s).
Proof.
  unfold convert_str_to_ul. rewrite convert_cases.
  destruct (stoul s 0) as [[v' consumed]|[what|what|what]]; [|by split..].
  case_decide; split.
  - intros [= ->]. by subst.
  - by intros [= -> _].
  - done.
  - intros [= _ ?]. done.
Qed.

Lemma convert_str_to_ul_Throw which s e :
  convert_str_to_ul which s = Throw e → ∃ why, e = InvalidIdError which s why.
Proof.
  unfold convert_str_to_ul. rewrite convert_cases.
  destruct (stoul s 0) as [[v' consumed]|[what|what|what]] eqn:Hstoul.
  - case_decide; [done|]. intros [= <-]. by eexists.
  - by apply stoul_never_MultijobError in Hstoul.
  - intros [= <-]. by eexists.
  - intros [= <-]. by eexists.
Qed.

Lemma convert_str_to_ul_decimal which (n : N) :
  Z.of_N n ≤ ULONG_MAX →
  convert_str_to_ul which (decimal_numeral n) = Return (Z.of_N n).
Proof. intros Hn. by apply convert_str_to_ul_Return, stoul_decimal. Qed.

Lemma only_the_two_ids (id rep ids idr : string) :
  id ≠ rep →
  let special : gmap string string := {[id := ids; rep := idr]} in
  special !! id = Some ids ∧ delete id special !! rep = Some idr ∧
  delete rep (delete id special) = ∅.
Proof.
  intros Hne special. unfold special. split_and!.
  - apply lookup_insert_eq.
  - by rewrite delete_insert_eq, delete_singleton_ne, lookup_singleton_eq.
  - by rewrite delete_insert_eq, delete_singleton_ne, delete_singleton_eq.
Qed.

(** C2, as the code has it. When the special region holds just the two id
    keys, each id string goes through [std::stoul] in base 0.
    [parse_commandline] fails with the invalid-id error, for the job id
    first, whenever [std::stoul] does not convert the whole of an id string:
    nothing to convert, a value above [ULONG_MAX], or characters left over.
    So it fails whenever an id string is not an integer literal, and text
    that does not start like a number is reported as not parseable. When
    both id strings are base-10 numerals, without leading zeros, of numbers
    below 2^32, the result carries exactly these two numbers. *)
Theorem ids_converted_by_stoul (argv0 : string) (tokens : list string)
    (config : JobArgvConfig) (skvs nkvs : list (string * string))
    (ids idr : string) :
  Forall2 splits_at_first_equals (special_region tokens) skvs →
  Forall2 splits_at_first_equals (normal_region tokens) nkvs →
  job_id_key config ≠ repetition_id_key config →
  assign_all skvs = {[job_id_key config := ids; repetition_id_key config := idr]} →
  ((∀ v, stoul ids 0 ≠ Return (v, StdString.size ids)) ∨
   (∀ v, stoul idr 0 ≠ Return (v, StdString.size idr)) →
   ∃ which bad why,
     invoke (argv0 :: tokens) config = Throw (InvalidIdError which bad why) ∧
     ((which = "job_id" ∧ bad = ids) ∨ (which = "repetition_id" ∧ bad = idr))) ∧
  (¬ integer_literal ids ∨ ¬ integer_literal idr →
   ∃ which bad why,
     invoke (argv0 :: tokens) config = Throw (InvalidIdError which bad why)) ∧
  ((ids = "" ∨ ∃ c rest, ids = String c rest ∧ isspace c = false ∧
                         c ≠ "+"%char ∧ c ≠ "-"%char ∧
                         digit_in_base 10 c = None) →
   invoke (argv0 :: tokens) config =
     Throw (InvalidIdError "job_id" ids (not_parseable "stoul"))) ∧
  (∀ n m : N,
     (n < 2 ^ 32)%N → (m < 2 ^ 32)%N →
     ids = decimal_numeral n → idr = decimal_numeral m →
     invoke (argv0 :: tokens) config =
       Return (mkArgs (Z.of_N n) (Z.of_N m) (assign_all nkvs))).
Proof.
  intros Hs Hn Hne Hspecial.
  assert (separate_argv (Z.of_nat (length (argv0 :: tokens)) - 1)
            (drop 1 (argv0 :: tokens)) "--" =
          Return (assign_all skvs, assign_all nkvs)) as Hsep.
  { rewrite argc_skip. cbn [drop]. rewrite drop_0. by apply separate_argv_ok. }
  rewrite Hspecial in Hsep.
  destruct (only_the_two_ids _ _ ids idr Hne) as (Hid & Hrep & Hnone).
  unfold invoke.
  rewrite (parse_commandline_ids _ _ _ _ _ Hsep _ _ Hid Hrep Hnone).
  assert ((∀ v, stoul ids 0 ≠ Return (v, StdString.size ids)) ∨
          (∀ v, stoul idr 0 ≠ Return (v, StdString.size idr)) →
          ∃ which bad why,
            (job_id ← ID <$> convert_str_to_ul "job_id" ids;
             repetition_id ← ID <$> convert_str_to_ul "repetition_id" idr;
             Return (mkArgs job_id repetition_id (assign_all nkvs))) =
              Throw (InvalidIdError which bad why) ∧
            ((which = "job_id" ∧ bad = ids) ∨
             (which = "repetition_id" ∧ bad = idr))) as Hrejected.
  { intros Hbad.
    destruct (convert_str_to_ul "job_id" ids) as [v|e] eqn:Hcid; simpl.
    + apply convert_str_to_ul_Return in Hcid.
      destruct Hbad as [Hbad|Hbad]; [by apply Hbad in Hcid|].
      destruct (convert_str_to_ul "repetition_id" idr) as [w|e] eqn:Hcrep; simpl.
      * apply convert_str_to_ul_Return in Hcrep. by apply Hbad in Hcrep.
      * apply convert_str_to_ul_Throw in Hcrep as [why ->].
        exists "repetition_id", idr, why. split; [done | by right].
    + apply convert_str_to_ul_Throw in Hcid as [why ->].
      exists "job_id", ids, why. split; [done | by left]. }
  split_and!.
  - exact Hrejected.
  - intros Hnot.
    destruct Hrejected as (which & bad & why & Hthrow & _);
      [|by exists which, bad, why].
    destruct Hnot as [Hnot|Hnot]; [left | right];
      intros v Hv; by apply stoul_full in Hv.
  - intros Hnon.
    assert (convert_str_to_ul "job_id" ids =
              Throw (InvalidIdError "job_id" ids (not_parseable "stoul"))) as ->;
      [|done].
    unfold convert_str_to_ul. by rewrite convert_cases, (stoul_non_numeric _ Hnon).
  - intros n m Hn32 Hm32 -> ->.
    assert (2 ^ 32 = 4294967296)%N as H32 by done.
    rewrite !convert_str_to_ul_decimal by (unfold ULONG_MAX; lia). simpl.
    unfold ID. by rewrite !Z.mod_small by lia.
Qed.

Lemma ids_converted_by_stoul_witness :
  invoke ["self"; "--id=4"; "--rep=7"; "--"; "a=b"] default_config =
    Return (mkArgs 4 7 {["a" := "b"]}).
Proof.
  destruct (ids_converted_by_stoul "self" ["--id=4"; "--rep=7"; "--"; "a=b"]
              default_config [("--id", "4"); ("--rep", "7")] [("a", "b")]
              "4" "7") as (_ & _ & _ & Hok).
  - by_evaluation.
  - by_evaluation.
  - done.
  - vm_compute. reflexivity.
  - apply (Hok 4%N 7%N); [done | done | reflexivity | reflexivity].
Defined.

(** A negative id and a prefixed id are accepted; a leading zero switches
    to base 8. *)
Lemma negative_and_prefixed_ids_accepted :
  invoke ["self"; "--id=-5"; "--rep=0x10"; "--"] default_config =
    Return (mkArgs 4294967291 16 ∅) ∧
  invoke ["self"; "--id=010"; "--rep=0"; "--"] default_config =
    Return (mkArgs 8 0 ∅).
Proof. split; vm_compute; reflexivity. Qed.

(** * Further properties of the code *)

(** ** The [Args] buffer *)

(** X1. A name that is not in the remaining map makes every getter fail with
    the missing-parameter error, before any coercion is tried, and leaves
    the object as it was. *)
Theorem missing_parameter_keeps_args {double : Type}
    (stod : string → outcome (double * nat)) (name : string) (self : Args) :
  m_args self !! name = None →
  get_s name self = (Throw (MissingParameterError name), self) ∧
  get_i name self = (Throw (MissingParameterError name), self) ∧
  get_d stod name self = (Throw (MissingParameterError name), self) ∧
  get_b name self = (Throw (MissingParameterError name), self) ∧
  ArgsDirect.get_i name self = (Throw (MissingParameterError name), self).
Proof.
  intros Hnone.
  unfold get_i, get_d, get_b, ArgsDirect.get_i, method_bind.
  by rewrite (get_s_absent _ _ Hnone).
Qed.

Lemma missing_parameter_keeps_args_witness :
  get_i "b" (mkArgs 4 5 {["a" := "1"]}) =
    (Throw (MissingParameterError "b"), mkArgs 4 5 {["a" := "1"]}).
Proof.
  pose (stod := λ _ : string, @Throw (() * nat) (std_invalid_argument "stod")).
  destruct (missing_parameter_keeps_args stod "b" (mkArgs 4 5 {["a" := "1"]}))
    as (_ & Hget_i & _); [reflexivity|].
  exact Hget_i.
Defined.

(** X2. [get_s] hands out a value once: a second [get_s] of the same name
    fails. Extractions of two different names do not disturb each other:
    each yields its value whichever comes first, and both orders leave the
    same object. *)
Theorem get_s_once_and_in_any_order (k1 k2 v1 v2 : string) (self : Args) :
  m_args self !! k1 = Some v1 →
  m_args self !! k2 = Some v2 →
  k1 ≠ k2 →
  (get_s k1 (get_s k1 self).2).1 = Throw (MissingParameterError k1) ∧
  (get_s k2 (get_s k1 self).2).1 = Return v2 ∧
  (get_s k1 (get_s k2 self).2).1 = Return v1 ∧
  (get_s k2 (get_s k1 self).2).2 = (get_s k1 (get_s k2 self).2).2 ∧
  m_args (get_s k2 (get_s k1 self).2).2 = delete k2 (delete k1 (m_args self)).
Proof.
  intros H1 H2 Hne.
  rewrite (get_s_present _ _ _ H1), (get_s_present _ _ _ H2). cbn [fst snd].
  assert (m_args (set_args self (delete k1 (m_args self))) !! k2 = Some v2)
    as H12 by (simpl; by rewrite lookup_delete_ne).
  assert (m_args (set_args self (delete k2 (m_args self))) !! k1 = Some v1)
    as H21 by (simpl; by rewrite lookup_delete_ne).
  rewrite (get_s_present _ _ _ H12), (get_s_present _ _ _ H21).
  rewrite get_s_absent by (simpl; apply lookup_delete_eq).
  split_and!; [done | done | done | | done].
  unfold set_args. simpl. f_equal. apply delete_delete.
Qed.

Lemma get_s_once_and_in_any_order_witness :
  let self := mkArgs 4 7 {["a" := "b"; "c" := "d"]} in
  (get_s "c" (get_s "a" self).2).2 = (get_s "a" (get_s "c" self).2).2.
Proof.
  intros self.
  destruct (get_s_once_and_in_any_order "a" "c" "b" "d" self)
    as (_ & _ & _ & Hsame & _); [reflexivity | reflexivity | done |].
  exact Hsame.
Defined.

Lemma extract_each_present (names : list string) (self : Args) :
  NoDup names →
  Forall (λ name, is_Some (m_args self !! name)) names →
  ∃ values,
    extract_each names self =
      (Return values, set_args self (foldr delete (m_args self) (reverse names))) ∧
    Forall2 (λ name value, m_args self !! name = Some value) names values.
Proof.
  revert self. induction names as [|name names IH]; intros self Hnodup Hall.
  - exists []. split; [by destruct self | constructor].
  - apply NoDup_cons in Hnodup as [Hnotin Hnodup].
    apply Forall_cons in Hall as [[value Hvalue] Hall].
    cbn [extract_each]. unfold method_bind at 1.
    rewrite (get_s_present _ _ _ Hvalue).
    set (self1 := set_args self (delete name (m_args self))).
    destruct (IH self1 Hnodup) as (values & Hrun & Hvalues).
    { apply Forall_forall. intros k Hin.
      rewrite Forall_forall in Hall. simpl.
      rewrite lookup_delete_ne; [by apply Hall|]. by intros ->. }
    exists (value :: values). unfold method_bind. rewrite Hrun. split.
    + unfold method_lift, set_args. simpl. do 2 f_equal.
      by rewrite reverse_cons, foldr_app.
    + constructor; [done|].
      eapply Forall2_impl; [exact Hvalues|].
      intros k v. simpl. by intros [_ ?]%lookup_delete_Some.
Qed.

(** X3. A caller that extracts a list of distinct names, all of them
    present, gets their values in order; what remains are exactly the other
    keys, with their values. [no_further_arguments] then returns exactly
    when the list covered every key, and otherwise reports exactly the keys
    that were not extracted. *)
Theorem extracting_each_parameter (names : list string) (self : Args) :
  NoDup names →
  Forall (λ name, is_Some (m_args self !! name)) names →
  ∃ values self',
    extract_each names self = (Return values, self') ∧
    Forall2 (λ name value, m_args self !! name = Some value) names values ∧
    job_id self' = job_id self ∧ repetition_id self' = repetition_id self ∧
    (∀ k, m_args self' !! k =
            if decide (k ∈ names) then None else m_args self !! k) ∧
    (no_further_arguments self' = Return () ↔
       ∀ k, is_Some (m_args self !! k) → k ∈ names) ∧
    (∀ k, k ∈ sorted_keys (m_args self') ↔
          is_Some (m_args self !! k) ∧ k ∉ names).
Proof.
  intros Hnodup Hall.
  destruct (extract_each_present names self Hnodup Hall) as (values & Hrun & Hvalues).
  eexists values, _. split; [exact Hrun|].
  assert (∀ k, foldr delete (m_args self) (reverse names) !! k =
               if decide (k ∈ names) then None else m_args self !! k) as Hrest.
  { intros k. case_decide as Hin.
    - apply lookup_foldr_delete. by apply elem_of_reverse.
    - apply lookup_foldr_delete_not_elem_of. by rewrite elem_of_reverse. }
  split_and!; [exact Hvalues | reflexivity | reflexivity | exact Hrest | |].
  - unfold no_further_arguments. simpl. case_decide as Hempty.
    + split; [|done]. intros _ k Hk.
      destruct (decide (k ∈ names)) as [|Hnotin]; [done|].
      pose proof (Hrest k) as Hk'. rewrite decide_False, Hempty in Hk' by done.
      rewrite lookup_empty in Hk'. rewrite <-Hk' in Hk. by destruct Hk.
    + split; [done|]. intros Hcover. exfalso. apply Hempty.
      apply map_empty. intros k. rewrite Hrest.
      case_decide as Hin; [done|].
      destruct (m_args self !! k) eqn:Hk; [|done].
      exfalso. apply Hin, Hcover. by rewrite Hk.
  - intros k. rewrite elem_of_sorted_keys. simpl. rewrite Hrest.
    case_decide; split; try done.
    + by intros [? ?].
    + by intros [? ?].
Qed.

Lemma extracting_each_parameter_witness :
  let self := mkArgs 4 7 {["a" := "b"; "c" := "d"]} in
  ∃ values self',
    extract_each ["c"; "a"] self = (Return values, self') ∧
    no_further_arguments self' = Return ().
Proof.
  intros self.
  destruct (extracting_each_parameter ["c"; "a"] self)
    as (values & self' & Hrun & _ & _ & _ & _ & Hdone & _).
  - by_evaluation.
  - by_evaluation.
  - exists values, self'. split; [exact Hrun|]. apply Hdone.
    intros k [v Hk]. destruct (decide (k = "a")) as [->|Ha]; [by_evaluation|].
    destruct (decide (k = "c")) as [->|Hc]; [by_evaluation|].
    unfold self in Hk. simpl in Hk.
    rewrite lookup_insert_ne, lookup_singleton_ne in Hk by done. done.
Defined.

(** ** The key lists of the messages *)

Lemma quoted_body_prefix_free x y r1 r2 :
  StdString.quoted_body x +:+ String StdString.double_quote r1 =
    StdString.quoted_body y +:+ String StdString.double_quote r2 →
  x = y ∧ r1 = r2.
Proof.
  revert y. induction x as [|c x IH]; intros [|d y]; cbn [StdString.quoted_body].
  - by intros [= ->].
  - case_decide as Hd; intros Heq; [discriminate Heq|].
    injection Heq as <- _. destruct Hd. by left.
  - case_decide as Hc; intros Heq; [discriminate Heq|].
    injection Heq as -> _. destruct Hc. by left.
  - case_decide as Hc; case_decide as Hd; intros Heq.
    + injection Heq as -> Heq. by destruct (IH _ Heq) as [-> ->].
    + injection Heq as <- _. destruct Hd. by right.
    + injection Heq as -> _. destruct Hc. by right.
    + injection Heq as -> Heq. by destruct (IH _ Heq) as [-> ->].
Qed.

Lemma quoted_prefix_free x y r1 r2 :
  StdString.quoted x +:+ r1 = StdString.quoted y +:+ r2 → x = y ∧ r1 = r2.
Proof.
  unfold StdString.quoted. intros [= Heq].
  rewrite !string_app_assoc in Heq. by apply quoted_body_prefix_free in Heq.
Qed.

Lemma joined_and_quoted_loop_true_inj keys1 keys2 :
  joined_and_quoted_loop true keys1 = joined_and_quoted_loop true keys2 →
  keys1 = keys2.
Proof.
  revert keys2. induction keys1 as [|k1 keys1 IH]; intros [|k2 keys2];
    cbn [joined_and_quoted_loop]; [done | done | done |].
  intros Heq. apply (String.app_inj ", ") in Heq.
  apply quoted_prefix_free in Heq as [-> Heq]. by rewrite (IH _ Heq).
Qed.

(** X4. The separator handed to [joined_and_quoted] is never consulted: the
    items are quoted and joined by [", "] whatever it is. The output can be
    read back: two lists of keys with the same output are the same list,
    even when keys contain quotes, backslashes or commas. So the two
    messages that list keys determine the keys they list. *)
Theorem joined_and_quoted_reads_back :
  (∀ sep keys,
     joined_and_quoted sep keys =
       String.concat ", " (StdString.quoted <$> keys)) ∧
  (∀ sep1 sep2 keys1 keys2,
     joined_and_quoted sep1 keys1 = joined_and_quoted sep2 keys2 →
     keys1 = keys2) ∧
  (∀ keys1 keys2,
     UnconsumedArgumentsError keys1 = UnconsumedArgumentsError keys2 →
     keys1 = keys2) ∧
  (∀ keys1 keys2,
     UnknownSpecialArgumentError keys1 = UnknownSpecialArgumentError keys2 →
     keys1 = keys2).
Proof.
  assert (∀ sep1 sep2 keys1 keys2,
            joined_and_quoted sep1 keys1 = joined_and_quoted sep2 keys2 →
            keys1 = keys2) as Hinj.
  { intros sep1 sep2 [|k1 keys1] [|k2 keys2]; unfold joined_and_quoted;
      cbn [joined_and_quoted_loop]; [done | done | done |].
    intros Heq. apply (String.app_inj "") in Heq.
    apply quoted_prefix_free in Heq as [-> Heq].
    by rewrite (joined_and_quoted_loop_true_inj _ _ Heq). }
  split_and!.
  - apply joined_and_quoted_concat.
  - exact Hinj.
  - intros keys1 keys2 [= Heq]. by apply (Hinj ", " ", ").
  - intros keys1 keys2 [= Heq].
    by apply (Hinj ", " ", ").
Qed.

(** X5. [std::unordered_map] fixes no iteration order, and the code sorts
    the keys it gathered. Whatever order they were gathered in, the sorted
    list is the same, and it is the only ascending arrangement of the keys:
    the messages do not depend on the hash table. *)
Theorem key_order_is_immaterial (m : gmap string string) (keys : list string) :
  keys ≡ₚ (map_to_list m).*1 →
  merge_sort String.le keys = sorted_keys m ∧
  UnconsumedArgumentsError (merge_sort String.le keys) =
    UnconsumedArgumentsError (sorted_keys m) ∧
  (StronglySorted String.le keys → keys = sorted_keys m).
Proof.
  intros Hperm.
  assert (merge_sort String.le keys = sorted_keys m) as Hsame.
  { apply (StronglySorted_unique String.le).
    - apply (StronglySorted_merge_sort _).
    - apply sorted_keys_StronglySorted.
    - by rewrite merge_sort_Permutation, sorted_keys_Permutation. }
  split_and!; [done | by rewrite Hsame |].
  intros Hsorted. apply (StronglySorted_unique String.le); [done | |].
  - apply sorted_keys_StronglySorted.
  - by rewrite sorted_keys_Permutation.
Qed.

Lemma key_order_is_immaterial_witness :
  merge_sort String.le ["z"; "a"] = sorted_keys {["z" := "y"; "a" := "b"]} ∧
  merge_sort String.le ["a"; "z"] = sorted_keys {["z" := "y"; "a" := "b"]}.
Proof.
  split.
  - destruct (key_order_is_immaterial {["z" := "y"; "a" := "b"]} ["z"; "a"])
      as [Hsame _]; [by_evaluation | exact Hsame].
  - destruct (key_order_is_immaterial {["z" := "y"; "a" := "b"]} ["a"; "z"])
      as [Hsame _]; [by_evaluation | exact Hsame].
Defined.

(** ** What a successful [parse_commandline] tells *)

Lemma splits_at_first_equals_functional tokens kvs kvs' :
  Forall2 splits_at_first_equals tokens kvs →
  Forall2 splits_at_first_equals tokens kvs' →
  kvs = kvs'.
Proof.
  intros H. revert kvs'. induction H as [|tok kv tokens kvs Hkv _ IH];
    intros kvs' H'.
  - by apply Forall2_nil_inv_l in H'.
  - apply Forall2_cons_inv_l in H' as (kv' & kvs'' & Hkv' & H' & ->).
    apply split_arg_Return in Hkv, Hkv'. rewrite Hkv in Hkv'.
    injection Hkv' as <-. by rewrite (IH _ H').
Qed.

Lemma separate_argv_Return_inv tokens special normal :
  separate_argv (Z.of_nat (length tokens)) tokens "--" = Return (special, normal) →
  ∃ skvs nkvs,
    Forall2 splits_at_first_equals (special_region tokens) skvs ∧
    Forall2 splits_at_first_equals (normal_region tokens) nkvs ∧
    special = assign_all skvs ∧ normal = assign_all nkvs.
Proof.
  intros Hsep.
  destruct (decide (Exists (λ tok, "="%char ∉ chars tok)
                      (special_region tokens ++ normal_region tokens)))
    as [Hbad|Hgood].
  - destruct (separate_argv_malformed tokens Hbad) as (tok & _ & _ & Hthrow).
    by rewrite Hthrow in Hsep.
  - apply not_Exists_Forall in Hgood; [|intros tok; apply _].
    assert (Forall (λ tok, "="%char ∈ chars tok)
              (special_region tokens ++ normal_region tokens)) as Hall.
    { eapply Forall_impl; [exact Hgood|]. intros tok Htok. by apply dec_stable. }
    apply Forall_app in Hall as [Hs Hn].
    destruct (has_equals_splits _ Hs) as [skvs Hskvs].
    destruct (has_equals_splits _ Hn) as [nkvs Hnkvs].
    rewrite (separate_argv_ok _ _ _ Hskvs Hnkvs) in Hsep.
    injection Hsep as <- <-. by exists skvs, nkvs.
Qed.

Lemma invoke_Return_inv argv0 tokens config args :
  invoke (argv0 :: tokens) config = Return args →
  ∃ skvs nkvs ids idr vid vrep,
    Forall2 splits_at_first_equals (special_region tokens) skvs ∧
    Forall2 splits_at_first_equals (normal_region tokens) nkvs ∧
    job_id_key config ≠ repetition_id_key config ∧
    assign_all skvs =
      {[job_id_key config := ids; repetition_id_key config := idr]} ∧
    stoul ids 0 = Return (vid, StdString.size ids) ∧
    stoul idr 0 = Return (vrep, StdString.size idr) ∧
    args = mkArgs (ID vid) (ID vrep) (assign_all nkvs).
Proof.
  unfold invoke, parse_commandline. rewrite argc_skip. cbn [drop].
  rewrite drop_0.
  destruct (separate_argv _ tokens "--") as [[special normal]|e] eqn:Hsep;
    [|done].
  apply separate_argv_Return_inv in Hsep as (skvs & nkvs & Hs & Hn & -> & ->).
  simpl.
  destruct (assign_all skvs !! job_id_key config) as [ids|] eqn:Hid; [|done].
  destruct (delete (job_id_key config) (assign_all skvs)
              !! repetition_id_key config) as [idr|] eqn:Hrep; [|done].
  apply lookup_delete_Some in Hrep as [Hne Hrep].
  case_decide as Hsize; [done|].
  assert (delete (repetition_id_key config)
            (delete (job_id_key config) (assign_all skvs)) = ∅) as Hempty.
  { apply map_size_empty_iff. by destruct (size _). }
  destruct (convert_str_to_ul "job_id" ids) as [vid|] eqn:Hvid; [|done].
  destruct (convert_str_to_ul "repetition_id" idr) as [vrep|] eqn:Hvrep; [|done].
  simpl. intros [= <-].
  apply convert_str_to_ul_Return in Hvid, Hvrep.
  exists skvs, nkvs, ids, idr, vid, vrep. split_and!; try done.
  apply map_eq. intros k.
  destruct (decide (k = job_id_key config)) as [->|Hk1].
  { by rewrite Hid, lookup_insert_eq. }
  rewrite lookup_insert_ne by done.
  destruct (decide (k = repetition_id_key config)) as [->|Hk2].
  { by rewrite Hrep, lookup_singleton_eq. }
  rewrite lookup_singleton_ne by done.
  apply (f_equal (λ m, m !! k)) in Hempty.
  by rewrite !lookup_delete_ne, lookup_empty in Hempty.
Qed.

(** X6. [parse_commandline] returns only on well-formed input: every token
    of both regions has an [=], the special region names the job-id and
    repetition-id keys and no other key, these two keys differ, both id
    strings are integer literals, and the parameters of the result are the
    pairs of the normal region. The two ids it returns fit 32 bits. *)
Theorem parse_commandline_returns_only_if (argv0 : string)
    (tokens : list string) (config : JobArgvConfig) (args : Args) :
  invoke (argv0 :: tokens) config = Return args →
  Forall (λ tok, "="%char ∈ chars tok)
    (special_region tokens ++ normal_region tokens) ∧
  job_id_key config ≠ repetition_id_key config ∧
  (∃ skvs nkvs,
     Forall2 splits_at_first_equals (special_region tokens) skvs ∧
     Forall2 splits_at_first_equals (normal_region tokens) nkvs ∧
     (∀ k, k ∈ skvs.*1 ↔
           k = job_id_key config ∨ k = repetition_id_key config) ∧
     (∀ k ids, assign_all skvs !! k = Some ids → integer_literal ids) ∧
     m_args args = assign_all nkvs) ∧
  0 ≤ job_id args < 2 ^ 32 ∧ 0 ≤ repetition_id args < 2 ^ 32.
Proof.
  intros (skvs & nkvs & ids & idr & vid & vrep & Hs & Hn & Hne & Hspecial &
          Hvid & Hvrep & ->)%invoke_Return_inv.
  split_and!.
  - apply Forall_app. split.
    + eapply Forall2_Forall_l; [exact Hs|]. apply Forall_true.
      intros [k v] tok [-> _]. rewrite !chars_app.
      apply elem_of_app. right. apply elem_of_cons. by left.
    + eapply Forall2_Forall_l; [exact Hn|]. apply Forall_true.
      intros [k v] tok [-> _]. rewrite !chars_app.
      apply elem_of_app. right. apply elem_of_cons. by left.
  - done.
  - exists skvs, nkvs. split_and!; [done | done | | | done].
    + intros k. rewrite <-assign_all_is_Some, Hspecial.
      rewrite lookup_insert_is_Some, lookup_singleton_is_Some.
      split.
      * intros [Heq|[_ Heq]]; [left | right]; by symmetry.
      * intros [->| ->]; [by left|]. right. by split.
    + intros k s. rewrite Hspecial. intros Hk.
      apply lookup_insert_Some in Hk as [[_ <-]|[_ Hk]];
        [by eapply stoul_full|].
      apply lookup_singleton_Some in Hk as [_ <-]. by eapply stoul_full.
  - simpl. unfold ID. pose proof (Z.mod_pos_bound vid (2 ^ 32)). lia.
  - simpl. unfold ID. pose proof (Z.mod_pos_bound vid (2 ^ 32)). lia.
  - simpl. unfold ID. pose proof (Z.mod_pos_bound vrep (2 ^ 32)). lia.
  - simpl. unfold ID. pose proof (Z.mod_pos_bound vrep (2 ^ 32)). lia.
Qed.

Lemma parse_commandline_returns_only_if_witness :
  (∃ skvs nkvs,
     Forall2 splits_at_first_equals
       (special_region ["--rep=7"; "--id=4"; "--"; "a=b"]) skvs ∧
     Forall2 splits_at_first_equals
       (normal_region ["--rep=7"; "--id=4"; "--"; "a=b"]) nkvs ∧
     (∀ k, k ∈ skvs.*1 ↔ k = "--id" ∨ k = "--rep")).
Proof.
  destruct (parse_commandline_returns_only_if "self"
              ["--rep=7"; "--id=4"; "--"; "a=b"] default_config
              (mkArgs 4 7 {["a" := "b"]}))
    as (_ & _ & (skvs & nkvs & Hs & Hn & Hkeys & _) & _).
  - vm_compute. reflexivity.
  - exists skvs, nkvs. split_and!; [exact Hs | exact Hn | exact Hkeys].
Defined.

(** ** Tokens and regions *)

Lemma splits_has_equals tok kv :
  splits_at_first_equals tok kv → "="%char ∈ chars tok ∧ tok ≠ "--".
Proof.
  destruct kv as [k v]. intros [-> _]. simpl. split.
  - rewrite !chars_app. apply elem_of_app. right. apply elem_of_cons. by left.
  - intros Heq. apply (f_equal chars) in Heq. rewrite !chars_app in Heq.
    assert ("="%char ∈ chars "--") as Hin.
    { rewrite <-Heq. apply elem_of_app. right. apply elem_of_cons. by left. }
    revert Hin. by_evaluation.
Qed.

Lemma regions_of_separated stoks ntoks skvs :
  Forall2 splits_at_first_equals stoks skvs →
  special_region (stoks ++ "--" :: ntoks) = stoks ∧
  normal_region (stoks ++ "--" :: ntoks) = ntoks.
Proof.
  intros H. induction H as [|tok kv stoks skvs Hkv _ [IHs IHn]]; [done|].
  apply splits_has_equals in Hkv as [_ Hne]. simpl.
  rewrite !decide_False by done. by rewrite IHs, IHn.
Qed.


Lemma list_to_map_skip (l1 l2 : list (string * string)) k :
  k ∉ l1.*1 →
  (list_to_map (l1 ++ l2) : gmap string string) !! k =
    (list_to_map l2 : gmap string string) !! k.
Proof.
  induction l1 as [|[k' v'] l1 IH]; [done|]. simpl.
  intros [Hne Hnotin]%not_elem_of_cons.
  rewrite lookup_insert_ne by done. by apply IH.
Qed.

Lemma assign_all_last before after k v :
  k ∉ after.*1 → assign_all (before ++ (k, v) :: after) !! k = Some v.
Proof.
  intros Hnotin. unfold assign_all.
  rewrite reverse_app, reverse_cons, <-app_assoc.
  rewrite list_to_map_skip by by rewrite fmap_reverse, elem_of_reverse.
  simpl. apply lookup_insert_eq.
Qed.

(** X7. When a parameter name is given more than once after the separator,
    the last token decides: [get_s] on the parsed arguments returns the
    value of the last token with that key. A name given by no token of the
    normal region is missing, whatever the special region holds. *)
Theorem last_token_decides (argv0 : string) (tokens : list string)
    (config : JobArgvConfig) (args : Args) (nkvs : list (string * string)) :
  invoke (argv0 :: tokens) config = Return args →
  Forall2 splits_at_first_equals (normal_region tokens) nkvs →
  (∀ before after k v,
     nkvs = before ++ (k, v) :: after → k ∉ after.*1 →
     (get_s k args).1 = Return v) ∧
  (∀ k, k ∉ nkvs.*1 → (get_s k args).1 = Throw (MissingParameterError k)).
Proof.
  intros (skvs & nkvs' & ids & idr & vid & vrep & _ & Hn' & _ & _ & _ & _ & ->)
    %invoke_Return_inv Hn.
  rewrite (splits_at_first_equals_functional _ _ _ Hn' Hn).
  split.
  - intros before after k v -> Hnotin.
    by rewrite (get_s_present k v); [|simpl; by apply assign_all_last].
  - intros k Hk. by rewrite get_s_absent; [|simpl; by apply assign_all_None].
Qed.

Lemma last_token_decides_witness :
  ∃ args,
    invoke ["self"; "--id=4"; "--rep=7"; "--"; "a=1"; "b=2"; "a=3"]
      default_config = Return args ∧
    (get_s "a" args).1 = Return "3".
Proof.
  eexists. split; [vm_compute; reflexivity|].
  match goal with
  | |- (get_s _ ?args).1 = _ =>
      destruct (last_token_decides "self"
                  ["--id=4"; "--rep=7"; "--"; "a=1"; "b=2"; "a=3"]
                  default_config args [("a", "1"); ("b", "2"); ("a", "3")])
        as [Hlast _]
  end.
  - vm_compute. reflexivity.
  - by_evaluation.
  - apply (Hlast [("a", "1"); ("b", "2")] []); [reflexivity | by_evaluation].
Defined.

Lemma normal_loop_first_malformed good bad rest acc :
  Forall (λ tok, "="%char ∈ chars tok) good →
  "="%char ∉ chars bad →
  normal_loop (good ++ bad :: rest) acc = Throw (MalformedArgumentError bad).
Proof.
  intros Hgood Hbad. revert acc.
  induction Hgood as [|tok good Htok _ IH]; intros acc; simpl.
  - by rewrite (split_arg_malformed _ Hbad).
  - destruct (split_arg tok) as [[k v]|e] eqn:Hs; simpl; [apply IH|].
    by apply split_arg_Throw in Hs as [? _].
Qed.

(** X8. Only the first ["--"] separates. A second bare ["--"] is taken for a
    parameter token, and as it has no [=] the call fails with the
    malformed-argument error for ["--"], provided the tokens before it are
    well formed. *)
Theorem second_separator_is_malformed (argv0 : string)
    (stoks ntoks rest : list string) (config : JobArgvConfig) :
  Forall (λ tok, "="%char ∈ chars tok) stoks →
  Forall (λ tok, "="%char ∈ chars tok) ntoks →
  invoke (argv0 :: stoks ++ "--" :: ntoks ++ "--" :: rest) config =
    Throw (MalformedArgumentError "--").
Proof.
  intros Hs Hn. destruct (has_equals_splits _ Hs) as [skvs Hskvs].
  destruct (regions_of_separated stoks (ntoks ++ "--" :: rest) skvs Hskvs)
    as [Hspecial Hnormal].
  unfold invoke. apply parse_commandline_separate_Throw.
  rewrite argc_skip. cbn [drop]. rewrite drop_0.
  unfold separate_argv. rewrite take_all_tokens.
  rewrite (special_loop_ok _ skvs) by by rewrite Hspecial.
  simpl. rewrite after_special_region, Hnormal.
  rewrite normal_loop_first_malformed; [done | done | by_evaluation].
Qed.

Lemma second_separator_is_malformed_witness :
  invoke ["self"; "--id=4"; "--rep=7"; "--"; "a=b"; "--"; "c=d"] default_config =
    Throw (MalformedArgumentError "--").
Proof.
  apply (second_separator_is_malformed "self" ["--id=4"; "--rep=7"] ["a=b"]
           ["c=d"] default_config); by_evaluation.
Defined.



(** ** Numerals, signed and unsigned *)

Lemma scan_body_base10 s :
  scan_body 10 s =
    match scan_digits 10 s 0 with
    | (_, O) => None
    | (v, n) => Some (v, n)
    end.
Proof.
  unfold scan_body. destruct s as [|c [|x rest]]; [done | done |].
  by rewrite andb_false_r.
Qed.

Lemma scan_body_digit_led base c rest v n :
  base = 0 ∨ base = 10 → c ≠ "0"%char →
  scan_digits 10 (String c rest) 0 = (v, S n) →
  scan_body base (String c rest) = Some (v, S n).
Proof.
  intros [-> | ->] Hzero Hscan.
  - unfold scan_body, leading_zero.
    rewrite (bool_decide_eq_false_2 _ Hzero). cbn [andb Z.eqb].
    rewrite Hscan. by destruct rest.
  - by rewrite scan_body_base10, Hscan.
Qed.

Lemma scan_body_decimal base (n : N) :
  base = 0 ∨ base = 10 →
  scan_body base (decimal_numeral n) =
    Some (Z.of_N n, String.length (decimal_numeral n)).
Proof.
  intros Hbase. rewrite decimal_string.
  destruct (to_uint_head n) as [Hzero|(c & d & Hs & Hc)].
  - rewrite Hzero. apply (f_equal N.of_uint) in Hzero.
    rewrite DecimalN.Unsigned.of_to in Hzero. subst n.
    destruct Hbase as [-> | ->]; reflexivity.
  - pose proof (scan_digits_uint (N.to_uint n)) as Hscan.
    rewrite DecimalN.Unsigned.of_to, Hs in Hscan. rewrite Hs.
    apply scan_body_digit_led; [done | | exact Hscan].
    intros ->. revert Hc. by_evaluation.
Qed.

Lemma decimal_numeral_head (n : N) :
  ∃ c rest, decimal_numeral n = String c rest ∧
            isspace c = false ∧ c ≠ "-"%char ∧ c ≠ "+"%char.
Proof.
  rewrite decimal_string.
  destruct (to_uint_head n) as [->|(c & d & -> & Hc)].
  - by exists "0"%char, "".
  - exists c, (NilEmpty.string_of_uint d). split; [done|].
    rewrite !elem_of_cons in Hc.
    destruct Hc as [->|[->|[->|[->|[->|[->|[->|[->|[->|Hc]]]]]]]]];
      [..|by apply elem_of_nil in Hc];
      (split_and!; [reflexivity | discriminate | discriminate]).
Qed.

Lemma scan_integer_numeral base (negative : bool) (n : N) :
  base = 0 ∨ base = 10 →
  let s := if negative then String "-" (decimal_numeral n)
           else decimal_numeral n in
  scan_integer base s = Some (Scanned negative (Z.of_N n) (String.length s)).
Proof.
  intros Hbase s. unfold s, scan_integer. destruct negative.
  - cbn [skip_space]. change (isspace "-") with false. cbn [scan_sign].
    rewrite decide_True by done. by rewrite (scan_body_decimal _ _ Hbase).
  - pose proof (scan_body_decimal _ n Hbase) as Hbody.
    destruct (decimal_numeral_head n) as (c & rest & Hs & Hspace & Hm & Hp).
    rewrite Hs in *. cbn [skip_space]. rewrite Hspace. cbn [scan_sign].
    rewrite !decide_False by done. by rewrite Hbody.
Qed.

Lemma stoul_numeral base (negative : bool) (n : N) :
  base = 0 ∨ base = 10 →
  let s := if negative then String "-" (decimal_numeral n)
           else decimal_numeral n in
  stoul s base =
    if ULONG_MAX <? Z.of_N n then Throw (std_out_of_range "stoul")
    else Return ((if negative then (- Z.of_N n) mod (ULONG_MAX + 1)
                  else Z.of_N n), StdString.size s).
Proof.
  intros Hbase. cbv zeta. unfold stoul.
  pose proof (scan_integer_numeral base negative n Hbase) as Hscan.
  cbv zeta in Hscan. rewrite Hscan. simpl. by destruct negative.
Qed.

Lemma stoi_decimal_int base (z : Z) :
  base = 0 ∨ base = 10 →
  stoi (decimal_int z) base =
    if (z <? INT_MIN) || (INT_MAX <? z) then Throw (std_out_of_range "stoi")
    else Return (z, StdString.size (decimal_int z)).
Proof.
  intros Hbase. unfold stoi, decimal_int.
  destruct (z <? 0) eqn:Hneg.
  - apply Z.ltb_lt in Hneg.
    pose proof (scan_integer_numeral base true (Z.to_N (- z)) Hbase) as Hscan.
    cbv zeta iota in Hscan. rewrite Hscan. simpl.
    rewrite Z2N.id by lia. rewrite Z.opp_involutive.
    unfold LONG_MIN, LONG_MAX, INT_MIN, INT_MAX.
    destruct (z <? - 2 ^ 63) eqn:H1; [apply Z.ltb_lt in H1|apply Z.ltb_ge in H1];
    destruct (z <? - 2 ^ 31) eqn:H2; [apply Z.ltb_lt in H2|apply Z.ltb_ge in H2|
                                      apply Z.ltb_lt in H2|apply Z.ltb_ge in H2];
      try lia; try done;
      rewrite (proj2 (Z.ltb_ge (2 ^ 63 - 1) z)) by lia;
      rewrite ?(proj2 (Z.ltb_ge (2 ^ 31 - 1) z)) by lia; done.
  - apply Z.ltb_ge in Hneg.
    pose proof (scan_integer_numeral base false (Z.to_N z) Hbase) as Hscan.
    cbv zeta iota in Hscan. rewrite Hscan. simpl.
    rewrite Z2N.id by lia.
    unfold LONG_MIN, LONG_MAX, INT_MIN, INT_MAX.
    rewrite (proj2 (Z.ltb_ge z (- 2 ^ 63))) by lia.
    rewrite (proj2 (Z.ltb_ge z (- 2 ^ 31))) by lia. simpl.
    destruct (2 ^ 63 - 1 <? z) eqn:H1; [apply Z.ltb_lt in H1|apply Z.ltb_ge in H1];
    destruct (2 ^ 31 - 1 <? z) eqn:H2; [apply Z.ltb_lt in H2|apply Z.ltb_ge in H2|
                                        apply Z.ltb_lt in H2|apply Z.ltb_ge in H2];
      try lia; done.
Qed.

Lemma invoke_two_ids argv0 tokens config skvs nkvs ids idr :
  Forall2 splits_at_first_equals (special_region tokens) skvs →
  Forall2 splits_at_first_equals (normal_region tokens) nkvs →
  job_id_key config ≠ repetition_id_key config →
  assign_all skvs = {[job_id_key config := ids; repetition_id_key config := idr]} →
  invoke (argv0 :: tokens) config =
    job_id ← ID <$> convert_str_to_ul "job_id" ids;
    repetition_id ← ID <$> convert_str_to_ul "repetition_id" idr;
    Return (mkArgs job_id repetition_id (assign_all nkvs)).
Proof.
  intros Hs Hn Hne Hspecial.
  assert (separate_argv (Z.of_nat (length (argv0 :: tokens)) - 1)
            (drop 1 (argv0 :: tokens)) "--" =
          Return (assign_all skvs, assign_all nkvs)) as Hsep.
  { rewrite argc_skip. cbn [drop]. rewrite drop_0. by apply separate_argv_ok. }
  rewrite Hspecial in Hsep.
  destruct (only_the_two_ids _ _ ids idr Hne) as (Hid & Hrep & Hnone).
  unfold invoke.
  by rewrite (parse_commandline_ids _ _ _ _ _ Hsep _ _ Hid Hrep Hnone).
Qed.

Lemma convert_str_to_ul_numeral which (negative : bool) (n : N) :
  let s := if negative then String "-" (decimal_numeral n)
           else decimal_numeral n in
  convert_str_to_ul which s =
    if ULONG_MAX <? Z.of_N n
    then Throw (InvalidIdError which s (out_of_range "stoul"))
    else Return (if negative then (- Z.of_N n) mod (ULONG_MAX + 1)
                 else Z.of_N n).
Proof.
  cbv zeta. unfold convert_str_to_ul. rewrite convert_cases.
  pose proof (stoul_numeral 0 negative n (or_introl eq_refl)) as Hstoul.
  cbv zeta in Hstoul. rewrite Hstoul.
  destruct (ULONG_MAX <? Z.of_N n); [done|]. by rewrite decide_True.
Qed.

(** ** Ids beyond 32 bits, and signed ids *)

(** X10. The ids are read as [unsigned long] and then narrowed to 32 bits
    without a check. A base-10 id up to [ULONG_MAX] is accepted and what is
    returned is its remainder modulo 2^32; only an id above [ULONG_MAX]
    fails, as out of range, the job id first. *)
Theorem ids_are_narrowed_to_32_bits (argv0 : string) (tokens : list string)
    (config : JobArgvConfig) (skvs nkvs : list (string * string)) (n m : N) :
  Forall2 splits_at_first_equals (special_region tokens) skvs →
  Forall2 splits_at_first_equals (normal_region tokens) nkvs →
  job_id_key config ≠ repetition_id_key config →
  assign_all skvs = {[job_id_key config := decimal_numeral n;
                      repetition_id_key config := decimal_numeral m]} →
  (Z.of_N n ≤ ULONG_MAX → Z.of_N m ≤ ULONG_MAX →
   invoke (argv0 :: tokens) config =
     Return (mkArgs (Z.of_N n mod 2 ^ 32) (Z.of_N m mod 2 ^ 32)
               (assign_all nkvs))) ∧
  (ULONG_MAX < Z.of_N n →
   invoke (argv0 :: tokens) config =
     Throw (InvalidIdError "job_id" (decimal_numeral n) (out_of_range "stoul"))) ∧
  (Z.of_N n ≤ ULONG_MAX → ULONG_MAX < Z.of_N m →
   invoke (argv0 :: tokens) config =
     Throw (InvalidIdError "repetition_id" (decimal_numeral m)
              (out_of_range "stoul"))).
Proof.
  intros Hs Hn Hne Hspecial.
  rewrite (invoke_two_ids _ _ _ _ _ _ _ Hs Hn Hne Hspecial).
  pose proof (convert_str_to_ul_numeral "job_id" false n) as Hid.
  pose proof (convert_str_to_ul_numeral "repetition_id" false m) as Hrep.
  cbv zeta iota in Hid, Hrep. rewrite Hid, Hrep.
  split_and!.
  - intros Hn64 Hm64.
    by rewrite !(proj2 (Z.ltb_ge _ _)) by done.
  - intros Hn64. by rewrite (proj2 (Z.ltb_lt _ _) Hn64).
  - intros Hn64 Hm64.
    by rewrite (proj2 (Z.ltb_ge _ _) Hn64), (proj2 (Z.ltb_lt _ _) Hm64).
Qed.

Lemma ids_are_narrowed_to_32_bits_witness :
  invoke ["self"; "--id=4294967296"; "--rep=4294967303"; "--"] default_config =
    Return (mkArgs 0 7 ∅).
Proof.
  destruct (ids_are_narrowed_to_32_bits "self"
              ["--id=4294967296"; "--rep=4294967303"; "--"] default_config
              [("--id", "4294967296"); ("--rep", "4294967303")] []
              4294967296%N 4294967303%N) as (Hok & _).
  - by_evaluation.
  - by_evaluation.
  - done.
  - vm_compute. reflexivity.
  - apply Hok; by_evaluation.
Defined.

(** X11. A minus sign before an id is not an error. For a base-10 magnitude
    [n] up to [ULONG_MAX], the id string [-n] is accepted and the id
    returned is [- n] modulo 2^32. *)
Theorem negative_ids_wrap_around (argv0 : string) (tokens : list string)
    (config : JobArgvConfig) (skvs nkvs : list (string * string)) (n m : N) :
  Forall2 splits_at_first_equals (special_region tokens) skvs →
  Forall2 splits_at_first_equals (normal_region tokens) nkvs →
  job_id_key config ≠ repetition_id_key config →
  assign_all skvs =
    {[job_id_key config := String "-" (decimal_numeral n);
      repetition_id_key config := String "-" (decimal_numeral m)]} →
  Z.of_N n ≤ ULONG_MAX → Z.of_N m ≤ ULONG_MAX →
  invoke (argv0 :: tokens) config =
    Return (mkArgs ((- Z.of_N n) mod 2 ^ 32) ((- Z.of_N m) mod 2 ^ 32)
              (assign_all nkvs)).
Proof.
  intros Hs Hn Hne Hspecial Hn64 Hm64.
  rewrite (invoke_two_ids _ _ _ _ _ _ _ Hs Hn Hne Hspecial).
  pose proof (convert_str_to_ul_numeral "job_id" true n) as Hid.
  pose proof (convert_str_to_ul_numeral "repetition_id" true m) as Hrep.
  cbv zeta iota in Hid, Hrep. rewrite Hid, Hrep.
  rewrite !(proj2 (Z.ltb_ge _ _)) by done. simpl. unfold ID, ULONG_MAX.
  assert (∀ a, (a mod (2 ^ 64 - 1 + 1)) mod 2 ^ 32 = a mod 2 ^ 32) as Hmod.
  { intros a. apply Z.mod_mod_divide. exists (2 ^ 32). lia. }
  by rewrite !Hmod.
Qed.

Lemma negative_ids_wrap_around_witness :
  invoke ["self"; "--id=-5"; "--rep=-1"; "--"] default_config =
    Return (mkArgs 4294967291 4294967295 ∅).
Proof.
  apply (negative_ids_wrap_around "self" ["--id=-5"; "--rep=-1"; "--"]
           default_config [("--id", "-5"); ("--rep", "-1")] [] 5%N 1%N).
  - by_evaluation.
  - by_evaluation.
  - done.
  - vm_compute. reflexivity.
  - by_evaluation.
  - by_evaluation.
Defined.

(** ** Integers through [get_i] *)

(** X12. [get_i] reads back every [int] from its base-10 rendering, negative
    ones included, in the current and in the earlier revision. A rendering
    of an integer outside the range of [int] fails as out of range: with the
    coercion error in the current revision, with [std::out_of_range] itself
    in the earlier one. *)
Theorem get_i_reads_back_int (name : string) (z : Z) (self : Args) :
  m_args self !! name = Some (decimal_int z) →
  (INT_MIN ≤ z ≤ INT_MAX →
   (get_i name self).1 = Return z ∧
   (ArgsDirect.get_i name self).1 = Return z) ∧
  (z < INT_MIN ∨ INT_MAX < z →
   (get_i name self).1 =
     Throw (CoercionError "an integer number" name (decimal_int z)
              (out_of_range "stoi")) ∧
   (ArgsDirect.get_i name self).1 = Throw (std_out_of_range "stoi")).
Proof.
  intros Hs. rewrite (get_i_present _ _ _ Hs).
  unfold ArgsDirect.get_i. rewrite (method_bind_lift_state _ _ _ _ Hs).
  cbn [fst]. unfold convert_str_to_i. rewrite convert_cases.
  rewrite !stoi_decimal_int by auto.
  split.
  - intros [Hlo Hhi].
    rewrite (proj2 (Z.ltb_ge _ _) Hlo), (proj2 (Z.ltb_ge _ _) Hhi). simpl.
    by rewrite decide_True, decide_False by auto.
  - intros Hout.
    assert ((z <? INT_MIN) || (INT_MAX <? z) = true) as ->; [|done].
    apply orb_true_iff. destruct Hout; [left | right]; by apply Z.ltb_lt.
Qed.

Lemma get_i_reads_back_int_witness :
  (get_i "a" (mkArgs 4 5 {["a" := "-2147483648"]})).1 = Return (-2147483648).
Proof.
  destruct (get_i_reads_back_int "a" (-2147483648)
              (mkArgs 4 5 {["a" := "-2147483648"]})) as [Hok _];
    [reflexivity|].
  apply Hok. by_evaluation.
Defined.

(** ** The earlier revisions *)

Lemma uint_string_head (d : Decimal.uint) :
  d ≠ Decimal.Nil →
  ∃ c rest, NilEmpty.string_of_uint d = String c rest ∧
            isspace c = false ∧ c ≠ "-"%char ∧ c ≠ "+"%char.
Proof.
  intros Hd. destruct d; [done|..]; eexists _, _;
    (split; [reflexivity|]);
    (split_and!; [reflexivity | discriminate | discriminate]).
Qed.

Lemma stoul_digits_base10 (d : Decimal.uint) :
  d ≠ Decimal.Nil →
  stoul (NilEmpty.string_of_uint d) 10 =
    if ULONG_MAX <? Z.of_N (N.of_uint d) then Throw (std_out_of_range "stoul")
    else Return (Z.of_N (N.of_uint d),
                 StdString.size (NilEmpty.string_of_uint d)).
Proof.
  intros Hd. destruct (uint_string_head d Hd) as (c & rest & Hs & Hspace & Hm & Hp).
  pose proof (scan_digits_uint d) as Hscan.
  unfold stoul, scan_integer. rewrite Hs in *.
  cbn [skip_space]. rewrite Hspace. cbn [scan_sign].
  rewrite !decide_False by done.
  rewrite scan_body_base10, Hscan. done.
Qed.

(** X13. The earlier [convert_str_to_ul] reads base 10 only. Any string of
    decimal digits whose value fits [unsigned long] yields that value,
    leading zeros or not, where the current revision reads a leading zero
    as octal; a [0x] prefix is refused as not numeric. On numerals without
    leading zeros the two revisions agree. *)
Theorem earlier_ids_are_base_10 (name : string) :
  (∀ d : Decimal.uint,
     d ≠ Decimal.Nil → Z.of_N (N.of_uint d) ≤ ULONG_MAX →
     ConversionDirect.convert_str_to_ul name (NilEmpty.string_of_uint d) =
       Return (Z.of_N (N.of_uint d))) ∧
  (∀ n : N,
     Z.of_N n ≤ ULONG_MAX →
     ConversionDirect.convert_str_to_ul name (decimal_numeral n) =
       convert_str_to_ul name (decimal_numeral n)) ∧
  (∀ x rest,
     is_x x = true →
     ConversionDirect.convert_str_to_ul name (String "0" (String x rest)) =
       Throw (MULTIJOB_ERROR
                ("can't parse " +:+ name +:+ ": "
                   +:+ StdString.quoted (String "0" (String x rest))
                   +:+ " is not numeric"))) ∧
  ConversionDirect.convert_str_to_ul name "010" = Return 10 ∧
  convert_str_to_ul name "010" = Return 8.
Proof.
  assert (∀ d : Decimal.uint,
     d ≠ Decimal.Nil → Z.of_N (N.of_uint d) ≤ ULONG_MAX →
     ConversionDirect.convert_str_to_ul name (NilEmpty.string_of_uint d) =
       Return (Z.of_N (N.of_uint d))) as Hdigits.
  { intros d Hd Hfit. unfold ConversionDirect.convert_str_to_ul.
    rewrite (stoul_digits_base10 d Hd), (proj2 (Z.ltb_ge _ _) Hfit).
    by rewrite decide_False by auto. }
  split_and!.
  - exact Hdigits.
  - intros n Hfit. rewrite (convert_str_to_ul_decimal _ _ Hfit).
    rewrite decimal_string.
    rewrite <-(DecimalN.Unsigned.of_to n) at 2.
    apply Hdigits; [|by rewrite DecimalN.Unsigned.of_to].
    destruct n; [done|]. apply DecimalPos.Unsigned.to_uint_nonnil.
  - intros x rest Hx. unfold ConversionDirect.convert_str_to_ul.
    assert (stoul (String "0" (String x rest)) 10 = Return (0, 1%nat)) as ->.
    { unfold stoul, scan_integer. cbn [skip_space].
      change (isspace "0") with false. cbn [scan_sign].
      rewrite !decide_False by done. rewrite scan_body_base10.
      cbn [scan_digits]. change (digit_in_base 10 "0") with (Some 0).
      assert (digit_in_base 10 x = None) as ->; [|done].
      unfold is_x in Hx.
      apply bool_decide_eq_true in Hx as [-> | ->]; reflexivity. }
    by rewrite decide_True by done.
  - reflexivity.
  - reflexivity.
Qed.

Lemma earlier_ids_are_base_10_witness :
  ConversionDirect.convert_str_to_ul "job_id" "007" = Return 7 ∧
  ConversionDirect.convert_str_to_ul "job_id" "42" =
    convert_str_to_ul "job_id" "42".
Proof.
  destruct (earlier_ids_are_base_10 "job_id") as (Hdigits & Hsame & _).
  split.
  - apply (Hdigits (Decimal.D0 (Decimal.D0 (Decimal.D7 Decimal.Nil))));
      [discriminate | by_evaluation].
  - apply (Hsame 42%N). by_evaluation.
Defined.

Lemma joined_and_quoted_reads_back_witness :
  joined_and_quoted "; " ["a"; "b"] =
    String.concat ", " [StdString.quoted "a"; StdString.quoted "b"] ∧
  (UnconsumedArgumentsError ["a, b"] = UnconsumedArgumentsError ["a"; "b"] →
   ["a, b"] = ["a"; "b"]).
Proof.
  destruct joined_and_quoted_reads_back as (Hconcat & _ & Hinj & _).
  split; [apply (Hconcat "; " ["a"; "b"]) | apply (Hinj ["a, b"] ["a"; "b"])].
Defined.

(** X14. In the earlier [parse_commandline] the repetition id is converted
    from the key that was looked up, not from the value given for it. So a
    call returns only if the repetition-id key is itself a number, and the
    repetition id is then that number; with the default key ["--rep"] no
    call returns, whatever the arguments. *)
Theorem earlier_repetition_id_is_the_key (argc : Z) (argv : list string)
    (config : JobArgvConfig) :
  (∀ args,
     MultijobDirect.parse_commandline argc argv config = Return args →
     ∃ v, stoul (repetition_id_key config) 10 =
            Return (v, StdString.size (repetition_id_key config)) ∧
          repetition_id args = ID v) ∧
  throws (MultijobDirect.parse_commandline argc argv default_config).
Proof.
  assert (∀ config args,
     MultijobDirect.parse_commandline argc argv config = Return args →
     ∃ v, stoul (repetition_id_key config) 10 =
            Return (v, StdString.size (repetition_id_key config)) ∧
          repetition_id args = ID v) as Hkey.
  { clear config. intros config args.
    unfold MultijobDirect.parse_commandline.
    destruct (separate_argv argc argv "--") as [[special normal]|e]; [|done].
    simpl.
    destruct (special !! job_id_key config) as [job_id_str|]; [|done].
    destruct (delete _ special !! repetition_id_key config); [|done].
    case_decide; [done|].
    destruct (stoul job_id_str 10) as [[job_id consumed]|e]; [|done]. simpl.
    case_decide; [done|].
    destruct (stoul (repetition_id_key config) 10)
      as [[repetition_id consumed']|e]; [|done]. simpl.
    case_decide as Hconsumed; [done|].
    intros [= <-]. exists repetition_id. split; [|done].
    by rewrite Hconsumed. }
  split; [apply Hkey|].
  destruct (MultijobDirect.parse_commandline argc argv default_config)
    as [args|e] eqn:Hparse; [|done].
  destruct (Hkey _ _ Hparse) as (v & Hstoul & _). discriminate Hstoul.
Qed.

Lemma earlier_repetition_id_is_the_key_witness :
  throws (MultijobDirect.parse_commandline 4 ["--id=4"; "--rep=7"; "--"; "a=b"]
            default_config) ∧
  ∃ v, stoul "9" 10 = Return (v, 1%nat) ∧
       repetition_id (mkArgs 4 9 ∅) = ID v.
Proof.
  split.
  - exact (proj2 (earlier_repetition_id_is_the_key 4
                    ["--id=4"; "--rep=7"; "--"; "a=b"] default_config)).
  - apply (proj1 (earlier_repetition_id_is_the_key 3 ["--id=4"; "9=7"; "--"]
                    (mkJobArgvConfig "--id" "9")) (mkArgs 4 9 ∅)).
    vm_compute. reflexivity.
Defined.

(** ** Floating point *)

(** X15. [get_d] adds nothing to what [std::stod] decides. For a name bound
    to [s] it removes the name and returns the value exactly when
    [std::stod] converted the whole of [s]. In the current revision every
    failure is the library's coercion error for a floating point number; in
    the earlier one only left-over characters are reported by the library,
    and an exception of [std::stod] leaves [get_d] as it is. *)
Theorem get_d_follows_stod {double : Type}
    (stod : string → outcome (double * nat)) (name s : string) (self : Args) :
  m_args self !! name = Some s →
  (∀ what, stod s ≠ Throw (MultijobError what)) →
  m_args (get_d stod name self).2 = delete name (m_args self) ∧
  m_args (ArgsDirectFloat.get_d stod name self).2 = delete name (m_args self) ∧
  (∀ v, (get_d stod name self).1 = Return v ↔
        stod s = Return (v, StdString.size s)) ∧
  (∀ v, (ArgsDirectFloat.get_d stod name self).1 = Return v ↔
        stod s = Return (v, StdString.size s)) ∧
  ((∃ v, (get_d stod name self).1 = Return v) ∨
   (∃ why, (get_d stod name self).1 =
             Throw (CoercionError "a floating point number" name s why))) ∧
  (∀ v consumed,
     stod s = Return (v, consumed) → consumed ≠ StdString.size s →
     (get_d stod name self).1 =
       Throw (CoercionError "a floating point number" name s
                trailing_characters) ∧
     (ArgsDirectFloat.get_d stod name self).1 =
       Throw (ArgsDirectFloat.NotDoubleError name s)) ∧
  (∀ e, stod s = Throw e →
     (ArgsDirectFloat.get_d stod name self).1 = Throw e).
Proof.
  intros Hs Hstd. rewrite (get_d_present _ _ _ _ Hs).
  unfold ArgsDirectFloat.get_d. rewrite (method_bind_lift_state _ _ _ _ Hs).
  cbn [fst snd]. unfold convert_str_to_ld. rewrite convert_cases.
  destruct (stod s) as [[v consumed]|[what|what|what]] eqn:Hstod; simpl.
  - destruct (decide (consumed = StdString.size s)) as [Heq|Hne];
      destruct (decide (consumed ≠ StdString.size s)) as [Hne'|Heq'];
      [done | | | done].
    + subst consumed.
      split_and!; [done | done | | | | | done].
      * intros v'. split; [by intros [= ->] | by intros [= ->]].
      * intros v'. split; [by intros [= ->] | by intros [= ->]].
      * left. by eexists.
      * by intros v' consumed' [= -> ->] Hne.
    + split_and!; [done | done | | | | | done].
      * intros v'. split; [done | by intros [= _ ?]].
      * intros v'. split; [done | by intros [= _ ?]].
      * right. by eexists.
      * done.
  - by destruct (Hstd what).
  - split_and!; [done | done | done | done | right; by eexists | done |].
    by intros e [= <-].
  - split_and!; [done | done | done | done | right; by eexists | done |].
    by intros e [= <-].
Qed.

Lemma get_d_follows_stod_witness :
  let stod := λ s : string, if decide (s = "1.5") then Return ((), 3%nat)
                            else Throw (std_invalid_argument "stod") in
  (get_d stod "c" (mkArgs 4 5 {["c" := "1.5"]})).1 = Return () ∧
  (ArgsDirectFloat.get_d stod "c" (mkArgs 4 5 {["c" := "x"]})).1 =
    Throw (std_invalid_argument "stod").
Proof.
  intros stod. split.
  - destruct (get_d_follows_stod stod "c" "1.5" (mkArgs 4 5 {["c" := "1.5"]}))
      as (_ & _ & Hret & _); [reflexivity | done |].
    by apply Hret.
  - destruct (get_d_follows_stod stod "c" "x" (mkArgs 4 5 {["c" := "x"]}))
      as (_ & _ & _ & _ & _ & _ & Hthrow); [reflexivity | done |].
    by apply Hthrow.
Defined.
